(** * Cursor pose tracking: registry and per-frame sweep

    A shallow embedding of [src/systems/cursor-pose-tracking.js]
    (class [CursorPoseTrackingSystem]) and the properties of its three entry
    points [register], [unregister] and [tick].

    JavaScript objects are modelled by their identity (an address in a store
    of scene objects), the array [this.pairs] by a list, exceptions and the
    mutable state by a small state-and-error monad. *)

From stdpp Require Import gmap strings list.

(** ** The three.js interface

    [Matrix4], [Vector3], [Quaternion] and [Matrix4.decompose] belong to
    three.js, an external library: the system only copies matrices and calls
    [decompose], so they are kept abstract. *)
Class Three := {
  Matrix4 : Type;
  Vector3 : Type;
  Quaternion : Type;
  (** [m.decompose(position, quaternion, scale)]: the three components it
      writes into its arguments. *)
  decompose : Matrix4 → Vector3 * Quaternion * Vector3
}.

(** ** Data *)

(** A JavaScript object reference; [!==] on objects compares these. *)
Definition NodeRef := positive.

(** The [path] handed to [userinput.get]. *)
Definition Path := string.

(** The element [{ object3D, path }] pushed by [register]. *)
Record TrackedLink := mkLink { object3D : NodeRef; path : Path }.

#[global] Instance TrackedLink_eq_dec : EqDecision TrackedLink.
Proof. solve_decision. Defined.

Inductive JsError := TypeError.

Section System.
Context `{Three}.

(** The fields of a three.js [Object3D] that [tick] writes. Every [Object3D]
    owns its [matrix], [position], [quaternion] and [scale], so they are
    values of the record rather than further references. *)
Record Object3D := mkObject3D {
  matrix : Matrix4;
  position : Vector3;
  quaternion : Quaternion;
  scale : Vector3;
  matrixIsModified : bool;
  matrixWorldNeedsUpdate : bool
}.

(** The mutable state: the system's [this.pairs] and the scene objects that
    references point to. A reference outside [objects] is a value that is not
    an [Object3D] (say [undefined]): reading [o.matrix.copy] on it throws. *)
Record Store := mkStore {
  pairs : list TrackedLink;
  objects : gmap NodeRef Object3D
}.

(** ** Computations: state, exceptions, and fuel for the [for] loop

    A computation ends by returning, by throwing (the store keeps what was
    written before the exception), or by running out of fuel. *)

Inductive Res (A : Type) :=
| Ret (a : A) (w : Store)
| Raise (e : JsError) (w : Store)
| OutOfFuel.
Arguments Ret {A} a w.
Arguments Raise {A} e w.
Arguments OutOfFuel {A}.

Definition M (A : Type) := Store → Res A.

Definition throw {A} (e : JsError) : M A := λ w, Raise e w.

(** Sequencing is written with stdpp's monad notation: [x ← c; k] and
    [c ;; k]. An exception or an exhausted fuel ends the computation. *)
#[global] Instance M_ret : MRet M := λ A a w, Ret a w.

#[global] Instance M_bind : MBind M := λ A B k c w,
  match c w with
  | Ret a w' => k a w'
  | Raise e w' => Raise e w'
  | OutOfFuel => OutOfFuel
  end.

(** ** The input provider, reached through the A-Frame global *)

(** [AFRAME.scenes[0].systems.userinput]: its [get] is a callback into host
    code, so it is a computation on the store (it may re-enter the system).
    [None] stands for every falsy result of [get], [Some m] for a matrix. *)
Record UserInput := mkUserInput { get : Path → M (option Matrix4) }.

(** A scene element; [userinput = None] when [systems.userinput] is
    [undefined] (the system is not initialised yet). *)
Record Scene := mkScene { userinput : option UserInput }.

(** [AFRAME.scenes]. *)
Definition AFrame := list Scene.

(** [AFRAME.scenes[0].systems.userinput.get]: a property read on [undefined]
    throws a [TypeError]. *)
Definition lookup_userinput (aframe : AFrame) : M UserInput :=
  match aframe !! 0 with
  | None => throw TypeError
  | Some sc =>
      match userinput sc with
      | None => throw TypeError
      | Some ui => mret ui
      end
  end.

(** ** The system *)

(** [constructor() { this.pairs = []; }] *)
Definition constructor (objs : gmap NodeRef Object3D) : Store :=
  {| pairs := []; objects := objs |}.

(** [register(object3D, path) { this.pairs.push({ object3D, path }); }] *)
Definition register (o : NodeRef) (p : Path) : M unit :=
  λ w, Ret tt {| pairs := pairs w ++ [mkLink o p]; objects := objects w |}.

(** [unregister(object3D) {
      this.pairs = this.pairs.filter(p => p.object3D !== object3D); }] *)
Definition unregister (o : NodeRef) : M unit :=
  λ w, Ret tt {| pairs := filter (λ p, object3D p ≠ o) (pairs w);
                 objects := objects w |}.

(** [this.pairs[i]], followed by a property read: [undefined] when [i] is out
    of range, on which the read throws. *)
Definition pairs_at (i : nat) : M TrackedLink :=
  λ w, match pairs w !! i with
       | Some l => Ret l w
       | None => Raise TypeError w
       end.

(** A statement that updates the object behind [o] in place. *)
Definition with_object (o : NodeRef) (f : Object3D → Object3D) : M unit :=
  λ w, match objects w !! o with
       | Some ob => Ret tt {| pairs := pairs w; objects := <[o := f ob]> (objects w) |}
       | None => Raise TypeError w
       end.

(** [o.matrix.copy(matrix)] *)
Definition copy_matrix (m : Matrix4) (ob : Object3D) : Object3D :=
  {| matrix := m; position := position ob; quaternion := quaternion ob;
     scale := scale ob; matrixIsModified := matrixIsModified ob;
     matrixWorldNeedsUpdate := matrixWorldNeedsUpdate ob |}.

(** [o.matrix.decompose(o.position, o.quaternion, o.scale)] *)
Definition decompose_matrix (ob : Object3D) : Object3D :=
  let '(p, q, s) := decompose (matrix ob) in
  {| matrix := matrix ob; position := p; quaternion := q; scale := s;
     matrixIsModified := matrixIsModified ob;
     matrixWorldNeedsUpdate := matrixWorldNeedsUpdate ob |}.

(** [o.matrixIsModified = true] *)
Definition set_matrixIsModified (ob : Object3D) : Object3D :=
  {| matrix := matrix ob; position := position ob; quaternion := quaternion ob;
     scale := scale ob; matrixIsModified := true;
     matrixWorldNeedsUpdate := matrixWorldNeedsUpdate ob |}.

(** [o.matrixWorldNeedsUpdate = true] *)
Definition set_matrixWorldNeedsUpdate (ob : Object3D) : Object3D :=
  {| matrix := matrix ob; position := position ob; quaternion := quaternion ob;
     scale := scale ob; matrixIsModified := matrixIsModified ob;
     matrixWorldNeedsUpdate := true |}.

(** The four statements that write the pose [m] to the object [o]. *)
Definition write_pose (o : NodeRef) (m : Matrix4) : M unit :=
  with_object o (copy_matrix m) ;;
  with_object o decompose_matrix ;;
  with_object o set_matrixIsModified ;;
  with_object o set_matrixWorldNeedsUpdate.

(** The body of [if (matrix) { ... }]: [this.pairs[i]] is read again, after
    the call to [get]. *)
Definition apply_pose (i : nat) (m : Matrix4) : M unit :=
  l ← pairs_at i;
  write_pose (object3D l) m.

(** One iteration of the loop, at index [i]. *)
Definition tick_body (aframe : AFrame) (i : nat) : M unit :=
  ui ← lookup_userinput aframe;
  l ← pairs_at i;
  mx ← get ui (path l);
  match mx with
  | Some m => apply_pose i m
  | None => mret tt
  end.

(** [for (let i = 0; i < this.pairs.length; i++) { ... }] from index [i] on.
    The bound [this.pairs.length] is read again before every iteration; each
    iteration uses one unit of fuel. *)
Fixpoint tick_loop (fuel : nat) (aframe : AFrame) (i : nat) : M unit :=
  λ w,
    if decide (i < length (pairs w)) then
      match fuel with
      | O => OutOfFuel
      | S fuel' => (tick_body aframe i ;; tick_loop fuel' aframe (S i)) w
      end
    else Ret tt w.

(** [tick()] *)
Definition tick (fuel : nat) (aframe : AFrame) : M unit :=
  tick_loop fuel aframe 0.

(** ** Notions used to state the properties *)

(** What the four statements of [write_pose] leave in an object. *)
Definition pose (m : Matrix4) (ob : Object3D) : Object3D :=
  set_matrixWorldNeedsUpdate
    (set_matrixIsModified (decompose_matrix (copy_matrix m ob))).

(** The object carries the transform [T]: its matrix is [T], its translation,
    rotation and scale are the decomposition of [T], both flags are set. *)
Definition posed (T : Matrix4) (ob : Object3D) : Prop :=
  matrix ob = T ∧
  (position ob, quaternion ob, scale ob) = decompose T ∧
  matrixIsModified ob = true ∧
  matrixWorldNeedsUpdate ob = true.

(** The provider found through the global, if there is one. *)
Definition provider (aframe : AFrame) : option UserInput :=
  aframe !! 0 ≫= userinput.

(** The provider is there and answers from the table [g] without touching
    the store. *)
Definition provides (aframe : AFrame) (g : Path → option Matrix4) : Prop :=
  ∃ ui, provider aframe = Some ui ∧ ∀ p w, get ui p w = Ret (g p) w.

(** No call of [get] changes the registry. *)
Definition registry_stable (ui : UserInput) : Prop :=
  ∀ p w, match get ui p w with
         | Ret _ w' | Raise _ w' => pairs w' = pairs w
         | OutOfFuel => True
         end.

(** Every link that the table [g] gives a transform points to an
    [Object3D] of the store. *)
Definition links_live (g : Path → option Matrix4) (ls : list TrackedLink)
    (objs : gmap NodeRef Object3D) : Prop :=
  ∀ l, l ∈ ls → is_Some (g (path l)) → is_Some (objs !! object3D l).

(** A provider that answers from a table. *)
Definition table_userinput (g : Path → option Matrix4) : UserInput :=
  {| get := λ p, mret (g p) |}.

(** ** The sweep over a snapshot

    Following the specification's words: [tick] "operates over a stable
    snapshot of the registry taken at the start of the sweep". The links are
    those of the registry when the sweep starts, whatever happens to
    [this.pairs] meanwhile. *)
Definition sweep_link (aframe : AFrame) (l : TrackedLink) : M unit :=
  ui ← lookup_userinput aframe;
  mx ← get ui (path l);
  match mx with
  | Some m => write_pose (object3D l) m
  | None => mret tt
  end.

Fixpoint sweep (aframe : AFrame) (ls : list TrackedLink) : M unit :=
  match ls with
  | [] => mret tt
  | l :: ls' => sweep_link aframe l ;; sweep aframe ls'
  end.

Definition tick_snapshot (aframe : AFrame) : M unit :=
  λ w, sweep aframe (pairs w) w.

End System.

Arguments Ret {_ A} a w.
Arguments Raise {_ A} e w.
Arguments OutOfFuel {_ A}.

(** ** A concrete scene for the examples

    Integer matrices stand in for three.js: sixteen elements in column-major
    order, and a [decompose] that reads the translation column and the
    diagonal scale and returns the identity rotation, which is what three.js
    computes on a matrix without rotation. *)
Module Demo.

Definition elt (m : list Z) (i : nat) : Z := default 0%Z (m !! i).

#[export] Instance three : Three := {|
  Matrix4 := list Z;
  Vector3 := Z * Z * Z;
  Quaternion := Z * Z * Z * Z;
  decompose m :=
    ((elt m 12, elt m 13, elt m 14),
     (0, 0, 0, 1)%Z,
     (elt m 0, elt m 5, elt m 10))
|}.

(** The translation by [(x, y, z)] with uniform scale [s]. *)
Definition mat (s x y z : Z) : Matrix4 :=
  [s; 0; 0; 0;  0; s; 0; 0;  0; 0; s; 0;  x; y; z; 1]%Z.

Definition identity : Matrix4 := mat 1 0 0 0.

(** A fresh [Object3D]: identity matrix, flags down. *)
Definition fresh : Object3D :=
  {| matrix := identity; position := (0, 0, 0)%Z;
     quaternion := (0, 0, 0, 1)%Z; scale := (1, 1, 1)%Z;
     matrixIsModified := false; matrixWorldNeedsUpdate := false |}.

Definition left_hand : NodeRef := 1%positive.
Definition right_hand : NodeRef := 2%positive.

Definition scene_objects : gmap NodeRef Object3D :=
  <[left_hand := fresh]> (<[right_hand := fresh]> ∅).

Definition T1 : Matrix4 := mat 1 5 6 7.
Definition T2 : Matrix4 := mat 2 8 9 10.

(** The provider tracks the two hands and nothing else. *)
Definition hands (p : Path) : option Matrix4 :=
  if decide (p = "left-hand") then Some T1
  else if decide (p = "right-hand") then Some T2
  else None.

Definition aframe_hands : AFrame := [mkScene (Some (table_userinput hands))].

(** Nothing is tracked. *)
Definition aframe_idle : AFrame :=
  [mkScene (Some (table_userinput (λ _, None)))].

(** The scene exists, its [userinput] system does not yet. *)
Definition aframe_booting : AFrame := [mkScene None].

(** A provider whose [get] re-enters the system: asked for the left hand, it
    unregisters the left-hand node before it answers. *)
Definition reentrant : UserInput :=
  {| get := λ p,
       if decide (p = "left-hand") then unregister left_hand ;; mret (Some T1)
       else mret (hands p) |}.

Definition aframe_reentrant : AFrame := [mkScene (Some reentrant)].

(** Both hands registered, each with its own source. *)
Definition two_hands : Store :=
  {| pairs := [mkLink left_hand "left-hand"; mkLink right_hand "right-hand"];
     objects := scene_objects |}.

(** One node registered twice, with the two sources. *)
Definition twice : Store :=
  {| pairs := [mkLink left_hand "left-hand"; mkLink left_hand "right-hand"];
     objects := scene_objects |}.

End Demo.

(** ** Further notions for the sweep *)

Section Tracking.
Context `{Three}.

(** The transform that the table [g] gives to the last link of node [n] in
    [ls] that has one. *)
Fixpoint last_transform (g : Path → option Matrix4) (ls : list TrackedLink)
    (n : NodeRef) : option Matrix4 :=
  match ls with
  | [] => None
  | l :: ls' =>
      match last_transform g ls' n with
      | Some T => Some T
      | None => if decide (object3D l = n) then g (path l) else None
      end
  end.


End Tracking.

(** * The bundler configuration

    A shallow embedding of the functions of [admin/webpack.config.js]: the
    predicates and the file-name generator that the configuration hands to
    webpack, [createHTTPSConfig], and the exported function, for the part of
    the configuration that it computes from its arguments and from
    [process.env]. *)
Module Webpack.
Import Stdlib.Strings.Ascii.

(** ** Strings *)

(** [s.startsWith(p)] *)
Definition startsWith (s p : string) : bool := String.prefix p s.

(** [s.split(c)] for a separator of one character. *)
Fixpoint split (c : ascii) (s : string) : list string :=
  match s with
  | "" => [""]
  | String a s' =>
      if decide (a = c) then "" :: split c s'
      else match split c s' with
           | x :: xs => String a x :: xs
           | [] => [String a ""]
           end
  end.

(** [parts.join(c)] *)
Fixpoint join (c : ascii) (parts : list string) : string :=
  match parts with
  | [] => ""
  | x :: xs =>
      match xs with
      | [] => x
      | _ :: _ => x +:+ String c (join c xs)
      end
  end.

(** [parts.shift()], for what it leaves in [parts]. *)
Definition shift (parts : list string) : list string := tail parts.

(** The string without its first [n] characters. *)
Fixpoint drop_chars (n : nat) (s : string) : string :=
  match n, s with
  | S n', String _ s' => drop_chars n' s'
  | _, _ => s
  end.

(** The string without the prefix [p], when it starts with it. *)
Definition strip_prefix (p s : string) : string :=
  if startsWith s p then drop_chars (String.length p) s else s.

(** ** Regular expressions

    The fragment of JavaScript regular expressions that the file uses, all of
    them without flags: literal characters (escapes resolved), sequence,
    alternation, [r?], [\d*] and the anchor [$]. *)
Inductive regex :=
| Str (s : string)
| Seq (r1 r2 : regex)
| Alt (r1 r2 : regex)
| Opt (r : regex)
| StarDigit
| End.

(** [\d] *)
Definition is_digit (c : ascii) : bool :=
  match Ascii.is_nat c with Some _ => true | None => false end.

(** The rest of [s] after the prefix [p]. *)
Fixpoint skip_prefix (p s : string) : option string :=
  match p, s with
  | "", _ => Some s
  | String a p', String b s' =>
      if decide (a = b) then skip_prefix p' s' else None
  | String _ _, "" => None
  end.

(** [\d*] followed by [k]: the longest run of digits first, then shorter
    ones. *)
Fixpoint exec_digits (s : string) (k : string → bool) : bool :=
  match s with
  | String c s' => (is_digit c && exec_digits s' k) || k s
  | "" => k ""
  end.

(** A backtracking matcher: [r] matches at the start of [s] and [k] accepts
    what follows. *)
Fixpoint exec (r : regex) (s : string) (k : string → bool) : bool :=
  match r with
  | Str p =>
      match skip_prefix p s with
      | Some rest => k rest
      | None => false
      end
  | Seq r1 r2 => exec r1 s (λ s', exec r2 s' k)
  | Alt r1 r2 => exec r1 s k || exec r2 s k
  | Opt r' => exec r' s k || k s
  | StarDigit => exec_digits s k
  | End => match s with "" => k "" | String _ _ => false end
  end.

(** [r.test(s)]: there is a match at some index of [s]. *)
Fixpoint test (r : regex) (s : string) : bool :=
  exec r s (λ _, true) ||
  match s with
  | String _ s' => test r s'
  | "" => false
  end.

(** [s|s1|s2|...] *)
Fixpoint alts (s : string) (ss : list string) : regex :=
  match ss with
  | [] => Str s
  | s' :: ss' => Alt (Str s) (alts s' ss')
  end.

(** ** The predicates of the configuration *)

(** [/\.(map|png|jpg|gif|glb|webm)$/] *)
Definition asset_filter_pattern : regex :=
  Seq (Seq (Str ".") (alts "map" ["png"; "jpg"; "gif"; "glb"; "webm"])) End.

(** [performance.assetFilter(assetFilename)] *)
Definition assetFilter (assetFilename : string) : bool :=
  negb (test asset_filter_pattern assetFilename).

(** The [exclude] function of the rule for [.js] files:
    [/node_modules/.test(modulePath) && !/node_modules\/hubs/.test(modulePath)] *)
Definition exclude (modulePath : string) : bool :=
  test (Str "node_modules") modulePath &&
  negb (test (Str "node_modules/hubs") modulePath).

(** The [origin] option given to [cors]: the pattern [hubs\.local], then
    optionally a colon and [\d*], then [$]. *)
Definition cors_origin : regex :=
  Seq (Seq (Str "hubs.local") (Opt (Seq (Str ":") StarDigit))) End.

(** The [test] patterns of the rules of [module.rules] that are regular
    expressions, with the loader or the type of each rule. *)
Definition rule_tests : list (string * regex) :=
  [ ("html-loader", Seq (Str ".html") End);
    ("babel-loader (js)", Seq (Str ".js") End);
    ("babel-loader (ts)", Seq (Seq (Str ".ts") (Opt (Str "x"))) End);
    ("worker-loader", Seq (Str ".worker.js") End);
    ("css-loader", Seq (Seq (Str ".") (alts "scss" ["css"])) End);
    ("raw-loader", Seq (Seq (Str ".") (alts "glsl" ["frag"; "vert"])) End);
    ("asset/resource",
     Seq (Seq (Str ".")
            (alts "png" ["jpg"; "gif"; "glb"; "ogg"; "mp3"; "mp4"; "wav";
                         "woff2"; "webm"])) End);
    ("file-loader (wasm)", Seq (Seq (Str ".") (Str "wasm")) End) ].

(** ** Notions used to state the properties of the patterns *)

(** [s] ends with [suffix]. *)
Definition ends_with (s suffix : string) : Prop :=
  ∃ base, s = base +:+ suffix.

(** [sub] occurs in [s]. *)
Definition contains (s sub : string) : Prop :=
  ∃ before after, s = before +:+ sub +:+ after.

Fixpoint all_digits (s : string) : bool :=
  match s with
  | "" => true
  | String c s' => is_digit c && all_digits s'
  end.

(** The patterns without [\d*] and [$]: they match finitely many strings,
    listed by [lang]. *)
Fixpoint star_free (r : regex) : bool :=
  match r with
  | Str _ => true
  | Seq r1 r2 | Alt r1 r2 => star_free r1 && star_free r2
  | Opt r' => star_free r'
  | StarDigit | End => false
  end.

Fixpoint lang (r : regex) : list string :=
  match r with
  | Str s => [s]
  | Seq r1 r2 => x ← lang r1; (λ y, x +:+ y) <$> lang r2
  | Alt r1 r2 => lang r1 ++ lang r2
  | Opt r' => lang r' ++ [""]
  | StarDigit | End => []
  end.

(** [b] is the end of [a]. *)
Fixpoint is_suffix (b a : string) : bool :=
  bool_decide (a = b) ||
  match a with
  | "" => false
  | String _ a' => is_suffix b a'
  end.

(** ** The file-name generator of the asset rule *)

(** Node's [path] module: [path.sep], one character on every platform, and
    [path.dirname], which belongs to Node and is kept abstract. *)
Class NodePath := {
  sep : ascii;
  dirname : string → string
}.

Section Generator.
Context `{NodePath}.

Definition sep_string : string := String sep "".

(** [generator.filename({ filename })] *)
Definition generator_filename (filename : string) : string :=
  let rootPath := dirname filename +:+ sep_string in
  let rootPath :=
    if startsWith rootPath ("src" +:+ sep_string)
    then join sep (shift (split sep rootPath))
    else rootPath in
  let rootPath :=
    if startsWith rootPath
         ("node_modules" +:+ sep_string +:+ "hubs" +:+ sep_string +:+
          "src" +:+ sep_string)
    then join sep (shift (shift (shift (split sep rootPath))))
    else rootPath in
  rootPath +:+ "[name]-[contenthash].[ext]".

End Generator.

(** ** The file system

    Node's [fs] module, for the four calls that [createHTTPSConfig] makes. A
    path is the list of its components, so that [path.join] is the
    concatenation; the file system maps the paths that exist to a directory
    or to the contents of a file. *)
Inductive Entry := Dir | File (content : string).

Inductive FsError :=
| ENOENT (p : list string)
| EEXIST (p : list string)
| ENOTDIR (p : list string)
| EISDIR (p : list string).

Inductive FsRes (A : Type) :=
| Ok (a : A) (fs : gmap (list string) Entry)
| Err (e : FsError) (fs : gmap (list string) Entry).
Arguments Ok {A} a fs.
Arguments Err {A} e fs.

Definition Fs (A : Type) := gmap (list string) Entry → FsRes A.

#[export] Instance Fs_ret : MRet Fs := λ A a fs, Ok a fs.

#[export] Instance Fs_bind : MBind Fs := λ A B k c fs,
  match c fs with
  | Ok a fs' => k a fs'
  | Err e fs' => Err e fs'
  end.

(** The directory that holds [p]. *)
Definition parent (p : list string) : list string :=
  take (length p - 1) p.

(** What is wrong with creating or finding something at [p], if anything:
    the directory that should hold it is missing or is a file. *)
Definition parent_error (p : list string) (fs : gmap (list string) Entry)
    : option FsError :=
  match fs !! parent p with
  | Some Dir => None
  | Some (File _) => Some (ENOTDIR p)
  | None => Some (ENOENT p)
  end.

(** [fs.existsSync(p)] *)
Definition existsSync (p : list string) : Fs bool :=
  λ fs, Ok (bool_decide (is_Some (fs !! p))) fs.

(** [fs.readFileSync(p)] *)
Definition readFileSync (p : list string) : Fs string :=
  λ fs, match fs !! p with
        | Some (File c) => Ok c fs
        | Some Dir => Err (EISDIR p) fs
        | None => Err (default (ENOENT p) (parent_error p fs)) fs
        end.

(** [fs.mkdirSync(p)], not recursive. *)
Definition mkdirSync (p : list string) : Fs unit :=
  λ fs, match fs !! p with
        | Some _ => Err (EEXIST p) fs
        | None =>
            match parent_error p fs with
            | Some e => Err e fs
            | None => Ok tt (<[p := Dir]> fs)
            end
        end.

(** [fs.writeFileSync(p, data)] *)
Definition writeFileSync (p : list string) (data : string) : Fs unit :=
  λ fs, match fs !! p with
        | Some Dir => Err (EISDIR p) fs
        | _ =>
            match parent_error p fs with
            | Some e => Err e fs
            | None => Ok tt (<[p := File data]> fs)
            end
        end.

(** ** [createHTTPSConfig] *)

(** What [selfsigned.generate] returns. The certificate is random: the
    result of the call, when the function makes it, is an argument. *)
Record Pems := mkPems { pems_private : string; pems_cert : string }.

Record HTTPSConfig := mkHTTPSConfig { key : string; cert : string }.

(** [createHTTPSConfig()], with [__dirname] as [dir]. *)
Definition createHTTPSConfig (dir : list string) (pems : Pems)
    : Fs HTTPSConfig :=
  found ← existsSync (dir ++ ["certs"]);
  if found : bool then
    key ← readFileSync (dir ++ ["certs"; "key.pem"]);
    cert ← readFileSync (dir ++ ["certs"; "cert.pem"]);
    mret {| key := key; cert := cert |}
  else
    mkdirSync (dir ++ ["certs"]);;
    writeFileSync (dir ++ ["certs"; "cert.pem"]) (pems_cert pems);;
    writeFileSync (dir ++ ["certs"; "key.pem"]) (pems_private pems);;
    mret {| key := pems_private pems; cert := pems_cert pems |}.

(** A file system in which whatever exists, the root apart, lies in a
    directory. *)
Definition fs_wf (fs : gmap (list string) Entry) : Prop :=
  ∀ p, is_Some (fs !! p) → p = [] ∨ fs !! parent p = Some Dir.

(** ** The exported function *)

(** [dotenv.config({ path })] belongs to the [dotenv] package: what it does
    to [process.env] is kept abstract. *)
Class Dotenv := {
  dotenv_config : string → gmap string string → gmap string string
}.

(** [a || d] on a value of [process.env]: an unset variable and the empty
    string are falsy. *)
Definition or_default (a : option string) (d : string) : string :=
  match a with
  | Some s => if decide (s = "") then d else s
  | None => d
  end.

(** The object given to [Object.assign] in local mode. *)
Definition local_settings : list (string * string) :=
  [ ("HOST", "localhost");
    ("RETICULUM_SOCKET_SERVER", "localhost");
    ("CORS_PROXY_SERVER", "hubs-proxy.local:4000");
    ("NON_CORS_PROXY_DOMAINS", "localhost,dev.reticulum.io");
    ("BASE_ASSETS_PATH", "https://localhost:8989/");
    ("RETICULUM_SERVER", "localhost:4000");
    ("POSTGREST_SERVER", "");
    ("ITA_SERVER", "turkey");
    ("TIER", "p1") ].

(** [Object.assign(target, source)] *)
Definition object_assign (target : gmap string string)
    (source : list (string * string)) : gmap string string :=
  foldl (λ t kv, <[kv.1 := kv.2]> t) target source.

(** The [env] argument, for the truth of [env.local]; [None] when webpack
    passes no [env]. *)
Record CliEnv := mkCliEnv { local : bool }.

(** The [argv] argument, for [argv.mode]. *)
Record Argv := mkArgv { mode : option string }.

(** The part of [devServer] that is computed. *)
Record DevServer := mkDevServer {
  server_options : HTTPSConfig;
  host : string;
  port : string;
  allowedHosts : list string
}.

(** The part of the configuration that is computed. [define_process_env] is
    the object that [DefinePlugin] receives for ["process.env"], before
    [JSON.stringify]: a field is [None] when it is [undefined]. *)
Record Config := mkConfig {
  publicPath : string;
  devtool : string;
  devServer : DevServer;
  define_process_env : list (string * option string)
}.

Section Exports.
Context `{Dotenv}.

(** [process.env] once the function has loaded the files and, in local mode,
    assigned the local settings. *)
Definition load_env (env : option CliEnv) (process_env : gmap string string)
    : gmap string string :=
  let process_env := dotenv_config ".env" process_env in
  let process_env := dotenv_config ".defaults.env" process_env in
  if from_option local false env
  then object_assign process_env local_settings
  else process_env.

(** [module.exports = (env, argv) => { ... }]: the configuration and the
    [process.env] it leaves. *)
Definition module_exports (dir : list string) (pems : Pems)
    (env : option CliEnv) (argv : Argv) (process_env : gmap string string)
    : Fs (Config * gmap string string) :=
  let process_env := load_env env process_env in
  let defaultHostName := "localhost" in
  let host := or_default (process_env !! "HOST_IP") defaultHostName in
  let internalHostname :=
    or_default (process_env !! "INTERNAL_HOSTNAME") "localhost" in
  options ← createHTTPSConfig dir pems;
  mret
    ({| publicPath := or_default (process_env !! "BASE_ASSETS_PATH") "";
        devtool :=
          if decide (mode argv = Some "production")
          then "source-map" else "inline-source-map";
        devServer :=
          {| server_options := options;
             host := or_default (process_env !! "HOST_IP") "0.0.0.0";
             port := or_default (process_env !! "PORT") "8989";
             allowedHosts := [host; internalHostname] |};
        define_process_env :=
          [ ("DISABLE_BRANDING", process_env !! "DISABLE_BRANDING");
            ("NODE_ENV", mode argv);
            ("BUILD_VERSION", process_env !! "BUILD_VERSION");
            ("CONFIGURABLE_SERVICES", process_env !! "CONFIGURABLE_SERVICES");
            ("ITA_SERVER", process_env !! "ITA_SERVER");
            ("TIER", process_env !! "TIER");
            ("RETICULUM_SERVER", process_env !! "RETICULUM_SERVER");
            ("CORS_PROXY_SERVER", process_env !! "CORS_PROXY_SERVER");
            ("POSTGREST_SERVER", process_env !! "POSTGREST_SERVER");
            ("UPLOADS_HOST", process_env !! "UPLOADS_HOST");
            ("BASE_ASSETS_PATH", process_env !! "BASE_ASSETS_PATH") ] |},
     process_env).

End Exports.

End Webpack.

(** ** Concrete inputs for the examples of the further properties *)
Module Scenes.
Import Demo.

(** A reference that is no object of the scene. *)
Definition dangling : NodeRef := 9%positive.

(** The right hand, then a link that points to no object, then the left
    hand. *)
Definition with_dangling : Store :=
  {| pairs := [mkLink right_hand "right-hand"; mkLink dangling "left-hand";
               mkLink left_hand "left-hand"];
     objects := scene_objects |}.



End Scenes.

Module Webpack_demo.
Import Stdlib.Strings.Ascii.
Import Webpack.

(** The separator of POSIX and a [dirname] that drops the last part of the
    path, or answers ["."] when there is a single part. *)
#[export] Instance posix : NodePath := {|
  sep := "/"%char;
  dirname s :=
    match removelast (split "/"%char s) with
    | [] => "."
    | parts => join "/"%char parts
    end
|}.

(** The root and an [admin] directory, without [certs]. *)
Definition fresh_checkout : gmap (list string) Entry :=
  <[ ["admin"] := Dir ]> (<[ [] := Dir ]> ∅).

(** The same with an empty [certs] directory. *)
Definition empty_certs : gmap (list string) Entry :=
  <[ ["admin"; "certs"] := Dir ]> fresh_checkout.

(** The same with a key and a certificate. *)
Definition with_certs : gmap (list string) Entry :=
  <[ ["admin"; "certs"; "cert.pem"] := File "CERT" ]>
    (<[ ["admin"; "certs"; "key.pem"] := File "KEY" ]> empty_certs).

Definition generated : Pems :=
  {| pems_private := "NEW KEY"; pems_cert := "NEW CERT" |}.

Definition generated_later : Pems :=
  {| pems_private := "OTHER KEY"; pems_cert := "OTHER CERT" |}.

(** A [dotenv] that gives the variables of [.defaults.env] that are not set
    yet, and finds no [.env] file. *)
#[export] Instance defaults_only : Dotenv := {|
  dotenv_config path process_env :=
    if decide (path = ".defaults.env")
    then process_env ∪ {[ "BASE_ASSETS_PATH" := "/"; "PORT" := "9090" ]}
    else process_env
|}.

(** A shell that sets [HOST_IP]. *)
Definition shell_env : gmap string string := {[ "HOST_IP" := "192.168.0.2" ]}.

End Webpack_demo.

(** * Properties *)

Section Properties.
Context `{Three}.

Implicit Types (w : Store) (o n : NodeRef) (l : TrackedLink)
  (ls : list TrackedLink) (m T : Matrix4) (ob : Object3D) (aframe : AFrame)
  (g : Path → option Matrix4).

(** ** Sequencing *)

Lemma bind_unfold {A B} (c : M A) (k : A → M B) w :
  (c ≫= k) w = match c w with
               | Ret a w' => k a w'
               | Raise e w' => Raise e w'
               | OutOfFuel => OutOfFuel
               end.
Proof. reflexivity. Qed.

Lemma bind_Ret {A B} (c : M A) (k : A → M B) w a w' :
  c w = Ret a w' → (c ≫= k) w = k a w'.
Proof. intros Hc. rewrite bind_unfold, Hc. reflexivity. Qed.

Lemma bind_Raise {A B} (c : M A) (k : A → M B) w e w' :
  c w = Raise e w' → (c ≫= k) w = Raise e w'.
Proof. intros Hc. rewrite bind_unfold, Hc. reflexivity. Qed.

Lemma bind_assoc {A B C} (c : M A) (k : A → M B) (k' : B → M C) w :
  ((c ≫= k) ≫= k') w = (c ≫= λ a, k a ≫= k') w.
Proof. rewrite !bind_unfold. destruct (c w); reflexivity. Qed.

(** ** Reaching the provider *)

Lemma lookup_userinput_provider aframe w :
  lookup_userinput aframe w =
    match provider aframe with
    | Some ui => Ret ui w
    | None => Raise TypeError w
    end.
Proof.
  unfold lookup_userinput, provider.
  destruct (aframe !! 0) as [sc|]; simpl; [|reflexivity].
  destruct (userinput sc); reflexivity.
Qed.

(** ** Writing a pose *)

Lemma pose_posed T ob : posed T (pose T ob).
Proof.
  unfold posed, pose, decompose_matrix; simpl.
  destruct (decompose T) as [[p q] s]; simpl. auto.
Qed.

Lemma with_object_live o f w ob :
  objects w !! o = Some ob →
  with_object o f w = Ret tt (mkStore (pairs w) (<[o := f ob]> (objects w))).
Proof. intros Ho. unfold with_object. rewrite Ho. reflexivity. Qed.

Lemma write_pose_live o m w ob :
  objects w !! o = Some ob →
  write_pose o m w = Ret tt (mkStore (pairs w) (<[o := pose m ob]> (objects w))).
Proof.
  intros Ho. unfold write_pose.
  rewrite (bind_Ret _ _ _ _ _ (with_object_live _ _ _ _ Ho)).
  repeat (erewrite bind_Ret;
          [|apply with_object_live; simpl; apply lookup_insert_eq]; simpl).
  erewrite with_object_live by (simpl; apply lookup_insert_eq). simpl.
  rewrite !insert_insert_eq. reflexivity.
Qed.

Lemma write_pose_dead o m w :
  objects w !! o = None → write_pose o m w = Raise TypeError w.
Proof.
  intros Ho. unfold write_pose. apply bind_Raise.
  unfold with_object. rewrite Ho. reflexivity.
Qed.

Lemma write_pose_cases o m w :
  (∃ ob, objects w !! o = Some ob ∧
         write_pose o m w =
           Ret tt (mkStore (pairs w) (<[o := pose m ob]> (objects w)))) ∨
  (objects w !! o = None ∧ write_pose o m w = Raise TypeError w).
Proof.
  destruct (objects w !! o) as [ob|] eqn:Ho.
  - left. exists ob. split; [reflexivity|]. by apply write_pose_live.
  - right. split; [reflexivity|]. by apply write_pose_dead.
Qed.

(** ** The registry: [register] and [unregister] *)

Lemma filter_keep_all {A} (P : A → Prop) `{!∀ x, Decision (P x)} (xs : list A) :
  (∀ x, x ∈ xs → P x) → filter P xs = xs.
Proof.
  induction xs as [|x xs IH]; intros HP; [reflexivity|].
  rewrite filter_cons_True by (apply HP; left).
  f_equal. apply IH. intros y Hy. apply HP. by right.
Qed.

Lemma unregister_pairs n w :
  unregister n w =
    Ret tt (mkStore (filter (λ l, object3D l ≠ n) (pairs w)) (objects w)).
Proof. reflexivity. Qed.

(** C8. [register(node, sourceId)] always returns, whatever the node (it need
    not even be an object of the scene) and the source id; it adds exactly one
    link, the pair of its arguments, at the end of the registry: the length
    grows by one, the links already there keep their positions, the new link
    is the last one; the scene objects are untouched. *)
Theorem register_appends_one n (s : Path) w :
  ∃ w', register n s w = Ret tt w' ∧
    pairs w' = pairs w ++ [mkLink n s] ∧
    length (pairs w') = S (length (pairs w)) ∧
    (∀ i, i < length (pairs w) → pairs w' !! i = pairs w !! i) ∧
    pairs w' !! length (pairs w) = Some (mkLink n s) ∧
    objects w' = objects w.
Proof.
  eexists. split; [reflexivity|]. simpl. repeat split.
  - rewrite length_app. simpl. lia.
  - intros i Hi. by apply lookup_app_l.
  - rewrite lookup_app_r by lia. by rewrite Nat.sub_diag.
Qed.

(** C6. [unregister(N)] always returns; afterwards no link of the registry
    has node [N], the links taken out are exactly the links of [N] (the old
    registry is the new one together with all its links of [N], up to order),
    the scene objects are untouched, and when no link has node [N] the store
    is unchanged. Nodes are compared by reference: a link to another node
    stays, even when that node's object has the same contents as [N]'s. *)
Theorem unregister_removes_matching n w :
  ∃ w', unregister n w = Ret tt w' ∧
    objects w' = objects w ∧
    (∀ l, l ∈ pairs w' ↔ l ∈ pairs w ∧ object3D l ≠ n) ∧
    pairs w' ++ filter (λ l, object3D l = n) (pairs w) ≡ₚ pairs w ∧
    (∀ l, l ∈ pairs w → object3D l ≠ n →
          objects w !! object3D l = objects w !! n → l ∈ pairs w') ∧
    ((∀ l, l ∈ pairs w → object3D l ≠ n) → w' = w).
Proof.
  eexists. split; [apply unregister_pairs|]. simpl.
  split; [reflexivity|]. split; [|split; [|split]].
  - intros l. rewrite list_elem_of_filter. tauto.
  - rewrite <-(filter_app_complement (λ l, object3D l ≠ n) (pairs w)) at 3.
    f_equiv. apply reflexive_eq, list_filter_iff. intros l.
    destruct (decide (object3D l = n)); tauto.
  - intros l Hl Hne _. apply list_elem_of_filter. by split.
  - intros Hno. destruct w as [ps objs]; simpl in *. f_equal.
    by apply filter_keep_all.
Qed.

(** C9. [unregister(N)] keeps every link whose node is not [N]: such a link
    of the old registry is in the new one, the new registry is a subsequence
    of the old one, and the links of other nodes form the same list, in the
    same order, before and after. *)
Theorem unregister_keeps_others n w :
  ∃ w', unregister n w = Ret tt w' ∧
    (∀ l, l ∈ pairs w → object3D l ≠ n → l ∈ pairs w') ∧
    pairs w' `sublist_of` pairs w ∧
    filter (λ l, object3D l ≠ n) (pairs w') =
      filter (λ l, object3D l ≠ n) (pairs w).
Proof.
  eexists. split; [apply unregister_pairs|]. simpl. repeat split.
  - intros l Hl Hn. apply list_elem_of_filter. by split.
  - apply sublist_filter.
  - apply list_filter_filter_l. auto.
Qed.

(** C10. Calling [unregister(N)] twice in a row gives the same store as
    calling it once. *)
Theorem unregister_idempotent n w :
  (unregister n ;; unregister n) w = unregister n w.
Proof.
  rewrite (bind_Ret _ _ _ _ _ (unregister_pairs n w)).
  rewrite !unregister_pairs. simpl. f_equal. f_equal.
  apply list_filter_filter_l. auto.
Qed.

(** C4. After [register(N, s)] immediately followed by [unregister(N)], from
    any store and for any [s], no link of the registry has node [N]. *)
Theorem register_unregister_no_link n (s : Path) w :
  ∃ w', (register n s ;; unregister n) w = Ret tt w' ∧
    (∀ l, l ∈ pairs w' → object3D l ≠ n) ∧
    filter (λ l, object3D l = n) (pairs w') = [].
Proof.
  eexists. split; [reflexivity|]. simpl. split.
  - intros l Hl. by apply list_elem_of_filter in Hl as [? _].
  - apply elem_of_nil_inv. intros l Hl.
    apply list_elem_of_filter in Hl as [Hn Hl].
    apply list_elem_of_filter in Hl as [Hne _]. by apply Hne.
Qed.

(** ** The sweep *)

Lemma write_pose_pairs o m w :
  match write_pose o m w with
  | Ret _ w' | Raise _ w' => pairs w' = pairs w
  | OutOfFuel => False
  end.
Proof.
  destruct (write_pose_cases o m w) as [(ob & _ & ->)|[_ ->]]; reflexivity.
Qed.

(** As long as [get] leaves the registry alone, the loop from index
    [length pre] on is the sweep over the remaining links. *)
Lemma tick_loop_sweep aframe :
  (∀ ui, provider aframe = Some ui → registry_stable ui) →
  ∀ suf pre w fuel,
    pairs w = pre ++ suf → length suf ≤ fuel →
    tick_loop fuel aframe (length pre) w = sweep aframe suf w.
Proof.
  intros Hst. induction suf as [|l suf IH]; intros pre w fuel Hp Hf.
  - rewrite app_nil_r in Hp.
    destruct fuel; simpl; rewrite Hp, decide_False by lia; reflexivity.
  - destruct fuel as [|fuel]; [simpl in Hf; lia|].
    simpl tick_loop.
    rewrite decide_True by (rewrite Hp, length_app; simpl; lia).
    simpl sweep. unfold tick_body, sweep_link.
    rewrite !bind_unfold, lookup_userinput_provider.
    destruct (provider aframe) as [ui|] eqn:Hui; [|reflexivity].
    rewrite bind_unfold. unfold pairs_at at 1.
    rewrite Hp, list_lookup_middle by reflexivity.
    rewrite !bind_unfold. specialize (Hst ui eq_refl (path l) w).
    destruct (get ui (path l) w) as [mx w1|e w1|]; [|reflexivity..].
    assert (Hnext : ∀ w2, pairs w2 = pairs w1 →
      tick_loop fuel aframe (S (length pre)) w2 = sweep aframe suf w2).
    { intros w2 Hw2.
      replace (S (length pre)) with (length (pre ++ [l]))
        by (rewrite length_app; simpl; lia).
      apply IH; [|simpl in Hf; lia].
      by rewrite Hw2, Hst, Hp, <-app_assoc. }
    destruct mx as [m|]; [|by apply Hnext].
    unfold apply_pose. rewrite bind_unfold. unfold pairs_at.
    rewrite Hst, Hp, list_lookup_middle by reflexivity.
    pose proof (write_pose_pairs (object3D l) m w1) as Hw.
    destruct (write_pose (object3D l) m w1) as [[] w2|e w2|];
      [by apply Hnext|reflexivity..].
Qed.

Lemma provides_stable aframe g ui :
  provides aframe g → provider aframe = Some ui → registry_stable ui.
Proof.
  intros (ui' & Hui & Hget) Hui2 p w.
  rewrite Hui in Hui2. injection Hui2 as <-. by rewrite Hget.
Qed.

Lemma sweep_link_table aframe g l w :
  provides aframe g →
  sweep_link aframe l w =
    match g (path l) with
    | Some m => write_pose (object3D l) m w
    | None => Ret tt w
    end.
Proof.
  intros (ui & Hui & Hget). unfold sweep_link.
  rewrite bind_unfold, lookup_userinput_provider, Hui.
  rewrite bind_unfold, Hget. destruct (g (path l)); reflexivity.
Qed.

Lemma sweep_app aframe ls1 ls2 w :
  sweep aframe (ls1 ++ ls2) w = (sweep aframe ls1 ;; sweep aframe ls2) w.
Proof.
  revert w. induction ls1 as [|l ls1 IH]; intros w; [reflexivity|].
  simpl. rewrite bind_assoc, !(bind_unfold (sweep_link aframe l)).
  destruct (sweep_link aframe l w); [apply IH|reflexivity..].
Qed.

Lemma tick_table_sweep aframe g w fuel :
  provides aframe g → length (pairs w) ≤ fuel →
  tick fuel aframe w = sweep aframe (pairs w) w.
Proof.
  intros Hg Hf. apply (tick_loop_sweep aframe) with (pre := []); [|done..].
  intros ui. by apply provides_stable with g.
Qed.

(** C3, as amended. The loop reads [this.pairs] at every iteration; when no
    call of [get] changes the registry during the sweep, [tick()] returns
    what the sweep over the snapshot taken at its start returns: the links
    processed are those of the registry at the start, in order. *)
Theorem tick_stable_registry_is_snapshot aframe w fuel :
  (∀ ui, provider aframe = Some ui → registry_stable ui) →
  length (pairs w) ≤ fuel →
  tick fuel aframe w = tick_snapshot aframe w.
Proof.
  intros Hst Hf. by apply (tick_loop_sweep aframe Hst (pairs w) []).
Qed.

(** C5. When the provider answers absent for every source id, [tick()]
    returns without raising and leaves the whole store as it was: every
    object's matrix, translation, rotation, scale and flags, and the
    registry. *)
Theorem tick_all_absent_unchanged aframe w fuel :
  provides aframe (λ _, None) →
  length (pairs w) ≤ fuel →
  tick fuel aframe w = Ret tt w.
Proof.
  intros Hg Hf. rewrite (tick_table_sweep aframe _ w fuel Hg Hf).
  generalize (pairs w) as ls. induction ls as [|l ls IH]; [reflexivity|].
  simpl. rewrite bind_unfold, (sweep_link_table aframe _ l w Hg). apply IH.
Qed.

(** C2, as amended. When the provider cannot be reached, [tick()] changes
    nothing in the store; on an empty registry it returns without raising, and
    on a registry with at least one link it raises a [TypeError] at the first
    link. *)
Theorem tick_provider_unavailable aframe w fuel :
  provider aframe = None →
  tick (S fuel) aframe w =
    match pairs w with
    | [] => Ret tt w
    | _ :: _ => Raise TypeError w
    end.
Proof.
  intros Hno. unfold tick. simpl tick_loop.
  destruct (pairs w) as [|l ls] eqn:Hp; [reflexivity|].
  rewrite decide_True by (simpl; lia).
  apply bind_Raise. unfold tick_body. apply bind_Raise.
  by rewrite lookup_userinput_provider, Hno.
Qed.

(** ** The sweep with a provider that answers from a table *)

Lemma links_live_app g ls1 ls2 (objs : gmap NodeRef Object3D) :
  links_live g (ls1 ++ ls2) objs ↔ links_live g ls1 objs ∧ links_live g ls2 objs.
Proof.
  unfold links_live. split.
  - intros Hl. split; intros l Hin; apply Hl, elem_of_app; auto.
  - intros [H1 H2] l [Hin|Hin]%elem_of_app; auto.
Qed.

Lemma links_live_same_objects g ls (objs objs' : gmap NodeRef Object3D) :
  (∀ n, is_Some (objs' !! n) ↔ is_Some (objs !! n)) →
  links_live g ls objs → links_live g ls objs'.
Proof. intros Hd Hl l Hin Hg. apply Hd. by apply Hl. Qed.

Lemma insert_live_same_objects (objs : gmap NodeRef Object3D) o ob ob' n :
  objs !! o = Some ob →
  is_Some (<[o := ob']> objs !! n) ↔ is_Some (objs !! n).
Proof.
  intros Ho. destruct (decide (o = n)) as [<-|Hne].
  - rewrite lookup_insert_eq, Ho. split; intros _; eauto.
  - by rewrite lookup_insert_ne.
Qed.

(** The sweep over links whose nodes are objects returns; it keeps the
    registry and the set of objects; an object none of whose links has a
    transform is untouched; an object that carries [T] still does when each
    of its links has no transform or the transform [T]. *)
Lemma sweep_table aframe g ls w :
  provides aframe g →
  links_live g ls (objects w) →
  ∃ objs',
    sweep aframe ls w = Ret tt (mkStore (pairs w) objs') ∧
    (∀ n, is_Some (objs' !! n) ↔ is_Some (objects w !! n)) ∧
    (∀ n, (∀ l, l ∈ ls → object3D l = n → g (path l) = None) →
          objs' !! n = objects w !! n) ∧
    (∀ n T ob,
       objects w !! n = Some ob → posed T ob →
       (∀ l, l ∈ ls → object3D l = n →
             g (path l) = None ∨ g (path l) = Some T) →
       ∃ ob', objs' !! n = Some ob' ∧ posed T ob').
Proof.
  intros Hg. revert w. induction ls as [|l ls IH]; intros w Hlive.
  { exists (objects w). destruct w. simpl. repeat split; eauto. }
  apply (links_live_app g [l] ls) in Hlive as [Hl Hls].
  simpl sweep. rewrite bind_unfold, (sweep_link_table aframe g l w Hg).
  destruct (g (path l)) as [m|] eqn:Hgl.
  - destruct (Hl l) as [ob0 Hob0]; [by left|by rewrite Hgl|].
    rewrite (write_pose_live _ _ _ _ Hob0).
    set (w1 := mkStore (pairs w) (<[object3D l := pose m ob0]> (objects w))).
    assert (Hdom : ∀ n, is_Some (objects w1 !! n) ↔ is_Some (objects w !! n)).
    { intros n. simpl. by apply insert_live_same_objects with ob0. }
    destruct (IH w1) as (objs' & Hsw & Hd & Hnone & Hposed).
    { by apply links_live_same_objects with (objects w). }
    exists objs'. split; [exact Hsw|]. split; [|split].
    + intros n. by rewrite Hd.
    + intros n Hn. rewrite Hnone.
      * simpl. apply lookup_insert_ne. intros Heq.
        specialize (Hn l (list_elem_of_here _ _) Heq). congruence.
      * intros l' Hl'. apply Hn. by right.
    + intros n T ob Hob HT Hn.
      destruct (decide (object3D l = n)) as [Heq|Hne].
      * destruct (Hn l (list_elem_of_here _ _) Heq) as [?|HmT]; [congruence|].
        assert (m = T) as -> by congruence.
        apply (Hposed n T (pose T ob0)).
        -- simpl. rewrite <-Heq. apply lookup_insert_eq.
        -- apply pose_posed.
        -- intros l' Hl'. apply Hn. by right.
      * apply (Hposed n T ob); [|done|].
        -- simpl. by rewrite lookup_insert_ne.
        -- intros l' Hl'. apply Hn. by right.
  - destruct (IH w Hls) as (objs' & Hsw & Hd & Hnone & Hposed).
    exists objs'. split; [exact Hsw|]. split; [done|]. split.
    + intros n Hn. apply Hnone. intros l' Hl'. apply Hn. by right.
    + intros n T ob Hob HT Hn. apply (Hposed n T ob); [done..|].
      intros l' Hl'. apply Hn. by right.
Qed.

(** One link with a transform and a live node. *)
Lemma sweep_link_live aframe g l w T ob :
  provides aframe g → g (path l) = Some T →
  objects w !! object3D l = Some ob →
  sweep_link aframe l w =
    Ret tt (mkStore (pairs w) (<[object3D l := pose T ob]> (objects w))).
Proof.
  intros Hg HT Hob. rewrite (sweep_link_table aframe g l w Hg), HT.
  by apply write_pose_live.
Qed.

(** With such a provider, an iteration of the loop at an index inside the
    registry is the sweep of the link at that index. *)
Lemma tick_body_table aframe g i l w :
  provides aframe g → pairs w !! i = Some l →
  tick_body aframe i w = sweep_link aframe l w.
Proof.
  intros Hg Hi. pose proof Hg as (ui & Hui & Hget).
  unfold tick_body, sweep_link.
  rewrite !bind_unfold, lookup_userinput_provider, Hui.
  rewrite bind_unfold. unfold pairs_at at 1. rewrite Hi.
  rewrite !bind_unfold, Hget.
  destruct (g (path l)); [|reflexivity].
  unfold apply_pose. rewrite bind_unfold. unfold pairs_at. by rewrite Hi.
Qed.

(** C1, as amended. The provider answers from a table and every link with a
    transform points to an object. For a link whose source id has the
    transform [T], and which no later link of the same node overrides with a
    different transform, [tick()] returns and the node then has matrix [T],
    translation, rotation and scale the decomposition of [T], and both flags
    set. *)
Theorem tick_poses_last_link aframe g w pre l post T :
  provides aframe g →
  links_live g (pairs w) (objects w) →
  pairs w = pre ++ l :: post →
  g (path l) = Some T →
  (∀ l', l' ∈ post → object3D l' = object3D l →
         g (path l') = None ∨ g (path l') = Some T) →
  ∃ w',
    (∀ fuel, length (pairs w) ≤ fuel → tick fuel aframe w = Ret tt w') ∧
    pairs w' = pairs w ∧
    ∃ ob, objects w' !! object3D l = Some ob ∧ posed T ob.
Proof.
  intros Hg Hlive Hp HT Hpost.
  rewrite Hp in Hlive.
  apply links_live_app in Hlive as [Hpre Hrest].
  apply (links_live_app g [l] post) in Hrest as [Hl Hlpost].
  destruct (sweep_table aframe g pre w Hg Hpre) as (objs1 & Hsw1 & Hd1 & _).
  set (w1 := mkStore (pairs w) objs1) in *.
  destruct (Hl l) as [ob0 Hob0]; [by left|by rewrite HT|].
  apply mk_is_Some, Hd1 in Hob0 as [ob1 Hob1].
  pose proof (sweep_link_live aframe g l w1 T ob1 Hg HT Hob1) as Hsw2.
  set (w2 := mkStore (pairs w1) (<[object3D l := pose T ob1]> (objects w1))) in *.
  destruct (sweep_table aframe g post w2 Hg) as (objs3 & Hsw3 & _ & _ & Hposed).
  { apply links_live_same_objects with (objects w); [|done].
    intros n. simpl. rewrite <-Hd1.
    by apply insert_live_same_objects with ob1. }
  exists (mkStore (pairs w) objs3). split; [|split; [reflexivity|]].
  - intros fuel Hf. rewrite (tick_table_sweep aframe g w fuel Hg Hf).
    rewrite Hp, sweep_app, (bind_Ret _ _ _ _ _ Hsw1). simpl sweep.
    rewrite (bind_Ret _ _ _ _ _ Hsw2), Hsw3.
    subst w1 w2. simpl. by rewrite Hp.
  - simpl. apply (Hposed _ T (pose T ob1)); [|apply pose_posed|done].
    simpl. apply lookup_insert_eq.
Qed.

(** With a provider that answers from a table, what the sweep does to the
    objects does not depend on the registry of the store it runs in. *)
Lemma sweep_table_registry aframe g ls w ps' (objs' : gmap NodeRef Object3D) :
  provides aframe g →
  sweep aframe ls w = Ret tt (mkStore (pairs w) objs') →
  sweep aframe ls (mkStore ps' (objects w)) = Ret tt (mkStore ps' objs').
Proof.
  intros Hg. destruct w as [ps objs]. simpl.
  revert objs. induction ls as [|l ls IH]; intros objs.
  { simpl. unfold mret, M_ret. congruence. }
  simpl. rewrite !bind_unfold, !(sweep_link_table aframe g l _ Hg).
  destruct (g (path l)) as [m|]; [|apply IH].
  destruct (objs !! object3D l) as [ob|] eqn:Hob.
  - rewrite !(write_pose_live _ _ _ ob) by done. simpl. apply IH.
  - rewrite !write_pose_dead by done. discriminate.
Qed.

(** C7. A node [n] is registered twice in a row, with source ids that the
    provider maps to [T1] and [T2]. Then [tick()] returns, and it is: the
    sweep of the links registered before, then the iteration for the first of
    the two links, after which [n] carries [T1], then the iteration for the
    second, after which [n] carries [T2]; this last store is the result. *)
Theorem tick_registered_twice_last_wins aframe g w0 n (s1 s2 : Path) T1 T2 :
  provides aframe g →
  links_live g (pairs w0) (objects w0) →
  is_Some (objects w0 !! n) →
  g s1 = Some T1 →
  g s2 = Some T2 →
  ∃ w w0' w1 w2,
    (register n s1 ;; register n s2) w0 = Ret tt w ∧
    (∀ fuel, length (pairs w0) ≤ fuel → tick fuel aframe w0 = Ret tt w0') ∧
    tick_body aframe (length (pairs w0)) (mkStore (pairs w) (objects w0'))
      = Ret tt w1 ∧
    (∃ ob1, objects w1 !! n = Some ob1 ∧ posed T1 ob1) ∧
    tick_body aframe (S (length (pairs w0))) w1 = Ret tt w2 ∧
    (∃ ob2, objects w2 !! n = Some ob2 ∧ posed T2 ob2) ∧
    (∀ fuel, length (pairs w) ≤ fuel → tick fuel aframe w = Ret tt w2).
Proof.
  intros Hg Hlive Hn HT1 HT2.
  set (l1 := mkLink n s1). set (l2 := mkLink n s2).
  set (ps := (pairs w0 ++ [l1]) ++ [l2]).
  destruct (sweep_table aframe g (pairs w0) w0 Hg Hlive)
    as (objs0 & Hsw0 & Hd0 & _).
  apply Hd0 in Hn as [ob0 Hob0].
  set (wp := mkStore ps objs0).
  set (w1 := mkStore ps (<[n := pose T1 ob0]> objs0)).
  set (w2 := mkStore ps (<[n := pose T2 (pose T1 ob0)]> (objects w1))).
  assert (Hl1 : sweep_link aframe l1 wp = Ret tt w1).
  { by apply (sweep_link_live aframe g l1 wp T1 ob0). }
  assert (Hl2 : sweep_link aframe l2 w1 = Ret tt w2).
  { apply (sweep_link_live aframe g l2 w1 T2 (pose T1 ob0)); [done..|].
    simpl. apply lookup_insert_eq. }
  exists (mkStore ps (objects w0)), (mkStore (pairs w0) objs0), w1, w2.
  split; [reflexivity|]. split; [|split; [|split; [|split; [|split]]]].
  - intros fuel Hf. by rewrite (tick_table_sweep aframe g w0 fuel Hg Hf).
  - simpl. rewrite <-Hl1. apply tick_body_table with g; [done|].
    simpl. unfold ps. rewrite <-app_assoc. by apply list_lookup_middle.
  - exists (pose T1 ob0). split; [apply lookup_insert_eq|apply pose_posed].
  - rewrite <-Hl2. apply tick_body_table with g; [done|].
    simpl. unfold ps. apply list_lookup_middle.
    rewrite length_app. simpl. lia.
  - exists (pose T2 (pose T1 ob0)).
    split; [apply lookup_insert_eq|apply pose_posed].
  - intros fuel Hf. rewrite (tick_table_sweep aframe g _ fuel Hg Hf).
    apply (sweep_table_registry aframe g _ _ ps) in Hsw0; [|done].
    simpl pairs. unfold ps at 1.
    rewrite sweep_app, bind_unfold, sweep_app. fold ps.
    rewrite (bind_Ret _ _ _ _ _ Hsw0).
    simpl sweep. rewrite !bind_unfold. fold wp. rewrite Hl1.
    unfold mret, M_ret. by rewrite bind_unfold, Hl2.
Qed.

End Properties.

(** * The properties on the concrete scene *)

Section Examples.
Import Demo.

Lemma provides_table (g : Path → option Matrix4) :
  provides [mkScene (Some (table_userinput g))] g.
Proof. exists (table_userinput g). split; [reflexivity|]. reflexivity. Qed.

Lemma links_live_scene (g : Path → option Matrix4) o1 s1 o2 s2 :
  o1 ∈ [left_hand; right_hand] → o2 ∈ [left_hand; right_hand] →
  links_live g [mkLink o1 s1; mkLink o2 s2] scene_objects.
Proof.
  intros Ho1 Ho2 l Hl _.
  assert (object3D l ∈ [left_hand; right_hand]) as Ho.
  { apply elem_of_cons in Hl as [->|Hl]; [done|].
    apply elem_of_cons in Hl as [->|Hl]; [done|].
    by apply elem_of_nil in Hl. }
  apply elem_of_cons in Ho as [->|Ho]; [by eexists|].
  apply elem_of_cons in Ho as [->|Ho]; [by eexists|].
  by apply elem_of_nil in Ho.
Qed.

(** Both hands are tracked: after the tick the left-hand node carries [T1]. *)
Lemma tick_poses_last_link_witness :
  provides aframe_hands hands ∧
  links_live hands (pairs two_hands) (objects two_hands) ∧
  hands "left-hand" = Some T1 ∧
  ∃ w',
    (∀ fuel, 2 ≤ fuel → tick fuel aframe_hands two_hands = Ret tt w') ∧
    pairs w' = pairs two_hands ∧
    ∃ ob, objects w' !! left_hand = Some ob ∧ posed T1 ob.
Proof.
  split; [apply provides_table|].
  split; [apply links_live_scene; set_solver|].
  split; [reflexivity|].
  apply (tick_poses_last_link aframe_hands hands two_hands
           [] (mkLink left_hand "left-hand") [mkLink right_hand "right-hand"] T1).
  - apply provides_table.
  - apply links_live_scene; set_solver.
  - reflexivity.
  - reflexivity.
  - intros l' Hl' Ho. apply elem_of_cons in Hl' as [->|Hl'].
    + discriminate Ho.
    + by apply elem_of_nil in Hl'.
Defined.

(** The same node registered with both sources: its first link has the
    transform [T1], yet after the tick the node carries [T2], the transform
    of the link registered later. *)
Lemma tick_overridden_link_counterexample :
  mkLink left_hand "left-hand" ∈ pairs twice ∧
  hands "left-hand" = Some T1 ∧
  tick 2 aframe_hands twice =
    Ret tt (mkStore (pairs twice) (<[left_hand := pose T2 fresh]> scene_objects)) ∧
  ∀ fuel w',
    tick fuel aframe_hands twice = Ret tt w' →
    ∃ ob, objects w' !! left_hand = Some ob ∧ matrix ob = T2 ∧ ¬ posed T1 ob.
Proof.
  split; [by left|]. split; [reflexivity|]. split; [by vm_compute|].
  intros fuel w' Hr.
  assert (w' = mkStore (pairs twice) (<[left_hand := pose T2 fresh]> scene_objects))
    as ->.
  { destruct fuel as [|[|fuel]]; try discriminate Hr.
    rewrite (tick_table_sweep aframe_hands hands twice (S (S fuel))) in Hr.
    - vm_compute in Hr. injection Hr as <-. by vm_compute.
    - apply provides_table.
    - simpl. lia. }
  exists (pose T2 fresh). split; [reflexivity|]. split; [reflexivity|].
  intros [Hm _]. discriminate Hm.
Qed.

(** The scene is there, its [userinput] system is not: with two links in the
    registry [tick()] raises, whatever the fuel, while a provider that
    answers absent for every source lets it return. *)
Lemma tick_unavailable_raises_counterexample :
  provider aframe_booting = None ∧
  tick 2 aframe_booting two_hands = Raise TypeError two_hands ∧
  (∀ fuel w', tick fuel aframe_booting two_hands ≠ Ret tt w') ∧
  tick 2 aframe_idle two_hands = Ret tt two_hands.
Proof.
  split; [reflexivity|]. split; [reflexivity|]. split; [|by vm_compute].
  intros [|fuel] w'; discriminate.
Qed.

(** On an empty registry, and on one with two links. *)
Lemma tick_provider_unavailable_witness :
  provider aframe_booting = None ∧
  tick 1 aframe_booting (constructor scene_objects)
    = Ret tt (constructor scene_objects) ∧
  tick 1 aframe_booting two_hands = Raise TypeError two_hands.
Proof.
  split; [reflexivity|]. split.
  - apply (tick_provider_unavailable aframe_booting (constructor scene_objects) 0).
    reflexivity.
  - apply (tick_provider_unavailable aframe_booting two_hands 0).
    reflexivity.
Defined.

(** The provider unregisters the left-hand node while it is asked for the
    left hand. The loop then finds the right-hand link at index 0, gives the
    right-hand node the transform of the left hand and stops; the sweep over
    the snapshot gives each node its own transform. *)
Lemma tick_reentrant_counterexample :
  ∃ w_loop w_snapshot,
    tick 2 aframe_reentrant two_hands = Ret tt w_loop ∧
    tick_snapshot aframe_reentrant two_hands = Ret tt w_snapshot ∧
    objects w_loop !! left_hand = Some fresh ∧
    objects w_loop !! right_hand = Some (pose T1 fresh) ∧
    objects w_snapshot !! left_hand = Some (pose T1 fresh) ∧
    objects w_snapshot !! right_hand = Some (pose T2 fresh) ∧
    ∀ fuel, tick fuel aframe_reentrant two_hands
              ≠ tick_snapshot aframe_reentrant two_hands.
Proof.
  eexists _, _. split; [by vm_compute|]. split; [by vm_compute|].
  simpl objects. repeat (split; [by vm_compute|]).
  intros [|[|fuel]] Heq; [discriminate Heq|..];
  apply (f_equal (λ r, match r with
                       | Ret _ w => objects w !! left_hand
                       | _ => None
                       end)) in Heq;
  vm_compute in Heq; discriminate Heq.
Qed.

(** A provider that answers from a table never touches the registry. *)
Lemma tick_stable_registry_is_snapshot_witness :
  (∀ ui, provider aframe_hands = Some ui → registry_stable ui) ∧
  length (pairs two_hands) ≤ 2 ∧
  tick 2 aframe_hands two_hands = tick_snapshot aframe_hands two_hands.
Proof.
  assert (Hst : ∀ ui, provider aframe_hands = Some ui → registry_stable ui).
  { intros ui Hui. injection Hui as <-. intros p w. reflexivity. }
  split; [exact Hst|]. split; [simpl; lia|].
  apply (tick_stable_registry_is_snapshot aframe_hands two_hands 2 Hst).
  simpl. lia.
Defined.

(** Nothing is tracked: the tick leaves the two registered hands alone. *)
Lemma tick_all_absent_unchanged_witness :
  provides aframe_idle (λ _, None) ∧
  length (pairs two_hands) ≤ 2 ∧
  tick 2 aframe_idle two_hands = Ret tt two_hands.
Proof.
  split; [apply provides_table|]. split; [simpl; lia|].
  apply (tick_all_absent_unchanged aframe_idle two_hands 2).
  - apply provides_table.
  - simpl. lia.
Defined.

(** The left-hand node registered with the left-hand source and then with
    the right-hand source, on a fresh system. *)
Lemma tick_registered_twice_last_wins_witness :
  provides aframe_hands hands ∧
  links_live hands (pairs (constructor scene_objects)) scene_objects ∧
  is_Some (scene_objects !! left_hand) ∧
  hands "left-hand" = Some T1 ∧
  hands "right-hand" = Some T2 ∧
  ∃ w w0' w1 w2,
    (register left_hand "left-hand" ;; register left_hand "right-hand")
      (constructor scene_objects) = Ret tt w ∧
    (∀ fuel, 0 ≤ fuel →
       tick fuel aframe_hands (constructor scene_objects) = Ret tt w0') ∧
    tick_body aframe_hands 0 (mkStore (pairs w) (objects w0')) = Ret tt w1 ∧
    (∃ ob1, objects w1 !! left_hand = Some ob1 ∧ posed T1 ob1) ∧
    tick_body aframe_hands 1 w1 = Ret tt w2 ∧
    (∃ ob2, objects w2 !! left_hand = Some ob2 ∧ posed T2 ob2) ∧
    (∀ fuel, length (pairs w) ≤ fuel → tick fuel aframe_hands w = Ret tt w2).
Proof.
  assert (Hlive : links_live hands (pairs (constructor scene_objects))
                    scene_objects).
  { intros l Hl. by apply elem_of_nil in Hl. }
  split; [apply provides_table|]. split; [exact Hlive|].
  split; [by eexists|]. split; [reflexivity|]. split; [reflexivity|].
  apply (tick_registered_twice_last_wins aframe_hands hands
           (constructor scene_objects) left_hand "left-hand" "right-hand" T1 T2).
  - apply provides_table.
  - exact Hlive.
  - by eexists.
  - reflexivity.
  - reflexivity.
Defined.

End Examples.

(** * Further properties of the sweep and of the registry *)

Section Tracking_properties.
Context `{Three}.

Implicit Types (w : Store) (o n : NodeRef) (l : TrackedLink)
  (ls : list TrackedLink) (m T : Matrix4) (ob : Object3D) (aframe : AFrame)
  (g : Path → option Matrix4).

(** What [write_pose] leaves does not depend on what the object held. *)
Lemma pose_const T ob ob' : pose T ob = pose T ob'.
Proof.
  unfold pose, decompose_matrix. simpl.
  destruct (decompose T) as [[p q] s]. reflexivity.
Qed.

Lemma sweep_last_transform aframe g ls w :
  provides aframe g →
  links_live g ls (objects w) →
  ∃ objs',
    sweep aframe ls w = Ret tt (mkStore (pairs w) objs') ∧
    ∀ n, objs' !! n =
           match last_transform g ls n with
           | Some T => pose T <$> objects w !! n
           | None => objects w !! n
           end.
Proof.
  intros Hg. revert w. induction ls as [|l ls IH]; intros w Hlive.
  { exists (objects w). destruct w. simpl. split; reflexivity. }
  apply (links_live_app g [l] ls) in Hlive as [Hl Hls].
  simpl sweep. rewrite bind_unfold, (sweep_link_table aframe g l w Hg).
  destruct (g (path l)) as [m|] eqn:Hgl.
  - destruct (Hl l) as [ob0 Hob0]; [by left|by rewrite Hgl|].
    rewrite (write_pose_live _ _ _ _ Hob0).
    set (w1 := mkStore (pairs w) (<[object3D l := pose m ob0]> (objects w))).
    destruct (IH w1) as (objs' & Hsw & Hlook).
    { apply links_live_same_objects with (objects w); [|done].
      intros n. simpl. by apply insert_live_same_objects with ob0. }
    exists objs'. split; [exact Hsw|]. intros n. rewrite Hlook. simpl.
    destruct (last_transform g ls n) as [T|].
    + destruct (decide (object3D l = n)) as [<-|Hne].
      * rewrite lookup_insert_eq, Hob0. simpl. f_equal. apply pose_const.
      * by rewrite lookup_insert_ne.
    + destruct (decide (object3D l = n)) as [<-|Hne].
      * by rewrite lookup_insert_eq, Hgl, Hob0.
      * by rewrite lookup_insert_ne.
  - destruct (IH w Hls) as (objs' & Hsw & Hlook).
    exists objs'. split; [exact Hsw|]. intros n. rewrite Hlook. simpl.
    destruct (last_transform g ls n); [reflexivity|].
    destruct (decide (object3D l = n)); [by rewrite Hgl|reflexivity].
Qed.

(** X1. With a provider that answers from a table and links that point to
    objects, [tick()] returns, keeps the registry, and leaves in every object
    the pose of the last link of that object that has a transform; an object
    without such a link is as it was. *)
Theorem tick_writes_last_transform aframe g w :
  provides aframe g →
  links_live g (pairs w) (objects w) →
  ∃ w',
    (∀ fuel, length (pairs w) ≤ fuel → tick fuel aframe w = Ret tt w') ∧
    pairs w' = pairs w ∧
    ∀ n, objects w' !! n =
           match last_transform g (pairs w) n with
           | Some T => pose T <$> objects w !! n
           | None => objects w !! n
           end.
Proof.
  intros Hg Hlive.
  destruct (sweep_last_transform aframe g (pairs w) w Hg Hlive)
    as (objs' & Hsw & Hlook).
  exists (mkStore (pairs w) objs'). split; [|split; [reflexivity|exact Hlook]].
  intros fuel Hf. by rewrite (tick_table_sweep aframe g w fuel Hg Hf).
Qed.

(** X2. Under the same conditions a second [tick()] changes nothing: the
    store after two sweeps is the store after one. *)
Theorem tick_twice_same aframe g w :
  provides aframe g →
  links_live g (pairs w) (objects w) →
  ∃ w',
    (∀ fuel, length (pairs w) ≤ fuel →
       tick fuel aframe w = Ret tt w' ∧ tick fuel aframe w' = Ret tt w').
Proof.
  intros Hg Hlive.
  destruct (sweep_last_transform aframe g (pairs w) w Hg Hlive)
    as (objs' & Hsw & Hlook).
  set (w' := mkStore (pairs w) objs').
  assert (Hlive' : links_live g (pairs w') (objects w')).
  { apply links_live_same_objects with (objects w); [|done].
    intros n. simpl. rewrite Hlook.
    destruct (last_transform g (pairs w) n); [|done].
    by rewrite fmap_is_Some. }
  destruct (sweep_last_transform aframe g (pairs w') w' Hg Hlive')
    as (objs'' & Hsw' & Hlook').
  assert (objs'' = objs') as ->.
  { apply map_eq. intros n. rewrite Hlook'. simpl. rewrite Hlook.
    destruct (last_transform g (pairs w) n) as [T|]; [|reflexivity].
    destruct (objects w !! n); simpl; [|reflexivity].
    f_equal. apply pose_const. }
  exists w'. intros fuel Hf. split.
  - by rewrite (tick_table_sweep aframe g w fuel Hg Hf).
  - by rewrite (tick_table_sweep aframe g w' fuel Hg Hf).
Qed.

(** Whatever the outcome of the sweep, an object none of whose links has a
    transform is not written, and the registry is kept. *)
Lemma sweep_frame aframe g ls w n :
  provides aframe g →
  (∀ l, l ∈ ls → object3D l = n → g (path l) = None) →
  match sweep aframe ls w with
  | Ret _ w' | Raise _ w' =>
      pairs w' = pairs w ∧ objects w' !! n = objects w !! n
  | OutOfFuel => False
  end.
Proof.
  intros Hg. revert w. induction ls as [|l ls IH]; intros w Hn; [done|].
  simpl sweep. rewrite bind_unfold, (sweep_link_table aframe g l w Hg).
  assert (Hn' : ∀ l', l' ∈ ls → object3D l' = n → g (path l') = None).
  { intros l' Hl'. apply Hn. by right. }
  destruct (g (path l)) as [m|] eqn:Hgl; [|by apply IH].
  destruct (write_pose_cases (object3D l) m w) as [(ob & Hob & ->)|[_ ->]];
    [|done].
  set (w1 := mkStore _ _). specialize (IH w1 Hn').
  assert (Hw1 : objects w1 !! n = objects w !! n).
  { simpl. apply lookup_insert_ne. intros Heq.
    specialize (Hn l (list_elem_of_here _ _) Heq). congruence. }
  destruct (sweep aframe ls w1) as [[] w2|e w2|]; simpl in IH; [| |done];
    destruct IH as [Hp Ho]; rewrite Hp, Ho; by split.
Qed.

(** X3. Once a node is unregistered, [tick()] does not write it any more:
    after [unregister(N)] and a sweep, whether the sweep returns or raises,
    the object of [N] is as it was and no link has node [N]. *)
Theorem unregister_stops_tracking aframe g w n fuel :
  provides aframe g →
  length (pairs w) ≤ fuel →
  match (unregister n ;; tick fuel aframe) w with
  | Ret _ w' | Raise _ w' =>
      objects w' !! n = objects w !! n ∧ ∀ l, l ∈ pairs w' → object3D l ≠ n
  | OutOfFuel => False
  end.
Proof.
  intros Hg Hf. rewrite (bind_Ret _ _ _ _ _ (unregister_pairs n w)).
  set (w1 := mkStore _ _).
  assert (Hno : ∀ l, l ∈ pairs w1 → object3D l ≠ n).
  { intros l Hl. by apply list_elem_of_filter in Hl as [? _]. }
  rewrite (tick_table_sweep aframe g w1 fuel Hg).
  2: { simpl. etrans; [apply length_filter|done]. }
  assert (Hfr := sweep_frame aframe g (pairs w1) w1 n Hg).
  specialize (Hfr (λ l Hl Heq, False_ind _ (Hno l Hl Heq))).
  destruct (sweep aframe (pairs w1) w1) as [[] w2|e w2|]; simpl in Hfr;
    [| |done]; destruct Hfr as [Hp Ho]; rewrite Hp, Ho; by split.
Qed.

(** X4. When a link with a transform points to something that is not an
    object, [tick()] raises a [TypeError] there: the store it leaves is the
    one after the sweep of the links before it, and the links after it are
    not processed. *)
Theorem tick_raises_at_missing_object aframe g w pre l post T :
  provides aframe g →
  pairs w = pre ++ l :: post →
  links_live g pre (objects w) →
  g (path l) = Some T →
  objects w !! object3D l = None →
  ∃ objs',
    (∀ fuel, length pre ≤ fuel →
       tick fuel aframe (mkStore pre (objects w)) = Ret tt (mkStore pre objs')) ∧
    (∀ fuel, length (pairs w) ≤ fuel →
       tick fuel aframe w = Raise TypeError (mkStore (pairs w) objs')).
Proof.
  intros Hg Hp Hpre HT Hdead.
  destruct (sweep_table aframe g pre w Hg Hpre) as (objs1 & Hsw1 & Hd1 & _).
  exists objs1. split; intros fuel Hf.
  - rewrite (tick_table_sweep aframe g (mkStore pre (objects w)) fuel Hg Hf).
    simpl. by apply (sweep_table_registry aframe g pre w pre objs1 Hg).
  - rewrite (tick_table_sweep aframe g w fuel Hg Hf).
    rewrite Hp at 1. rewrite sweep_app, (bind_Ret _ _ _ _ _ Hsw1).
    simpl sweep. apply bind_Raise.
    rewrite (sweep_link_table aframe g l _ Hg), HT.
    apply write_pose_dead. simpl.
    apply eq_None_not_Some. rewrite Hd1, Hdead. by intros [? ?].
Qed.


(** X6. [register] of one node and [unregister] of another commute. *)
Theorem register_unregister_commute n n' (s : Path) w :
  n ≠ n' →
  (register n s ;; unregister n') w = (unregister n' ;; register n s) w.
Proof.
  intros Hne. rewrite !bind_unfold. simpl. unfold register, unregister. simpl.
  f_equal. f_equal. rewrite filter_app. f_equal.
  by rewrite filter_cons_True.
Qed.

End Tracking_properties.

(** * Properties of the bundler configuration *)

Section Patterns.
Import Stdlib.Strings.Ascii.
Import Webpack.

Implicit Types (s p x y : string) (c : ascii) (r : regex) (k : string → bool).

(** ** Strings *)

Lemma string_app_nil_l s : "" +:+ s = s.
Proof. reflexivity. Qed.

Lemma string_app_cons c s1 s2 : String c s1 +:+ s2 = String c (s1 +:+ s2).
Proof. reflexivity. Qed.

Lemma string_app_nil_r s : s +:+ "" = s.
Proof.
  induction s as [|c s IH]; [reflexivity|].
  by rewrite string_app_cons, IH.
Qed.

Lemma string_app_assoc s1 s2 s3 : (s1 +:+ s2) +:+ s3 = s1 +:+ s2 +:+ s3.
Proof.
  induction s1 as [|c s1 IH]; [reflexivity|].
  by rewrite !string_app_cons, IH.
Qed.

Lemma skip_prefix_Some p s rest :
  skip_prefix p s = Some rest ↔ s = p +:+ rest.
Proof.
  revert s. induction p as [|a p IH]; intros s; simpl.
  - rewrite string_app_nil_l. split; congruence.
  - rewrite string_app_cons. destruct s as [|b s]; [split; discriminate|].
    case_decide as Hab.
    + subst b. rewrite IH. split; congruence.
    + split; [discriminate|]. congruence.
Qed.

Lemma skip_prefix_app p rest : skip_prefix p (p +:+ rest) = Some rest.
Proof. by apply skip_prefix_Some. Qed.

Lemma startsWith_true s p : startsWith s p = true ↔ ∃ rest, s = p +:+ rest.
Proof.
  unfold startsWith. revert s. induction p as [|a p IH]; intros s.
  - destruct s; simpl; split; eauto.
  - destruct s as [|b s]; simpl.
    + split; [discriminate|]. intros [rest Hr]. discriminate Hr.
    + destruct (ascii_dec a b) as [->|Hab].
      * rewrite IH. split; intros [rest Hr]; exists rest.
        -- by rewrite string_app_cons, Hr.
        -- rewrite string_app_cons in Hr. congruence.
      * split; [discriminate|]. intros [rest Hr].
        rewrite string_app_cons in Hr. congruence.
Qed.

Lemma drop_chars_app p rest : drop_chars (String.length p) (p +:+ rest) = rest.
Proof. induction p as [|a p IH]; [by destruct rest|done]. Qed.

Lemma strip_prefix_app p rest : strip_prefix p (p +:+ rest) = rest.
Proof.
  unfold strip_prefix.
  assert (startsWith (p +:+ rest) p = true) as -> by (apply startsWith_true; eauto).
  apply drop_chars_app.
Qed.

Lemma strip_prefix_other p s : startsWith s p = false → strip_prefix p s = s.
Proof. unfold strip_prefix. by intros ->. Qed.

(** ** The matcher *)

Lemma exec_Str_true p s k :
  exec (Str p) s k = true ↔ ∃ rest, s = p +:+ rest ∧ k rest = true.
Proof.
  simpl. destruct (skip_prefix p s) as [rest|] eqn:Hs.
  - apply skip_prefix_Some in Hs as ->. split; [eauto|].
    intros (rest' & Heq & Hk). by apply (inj _) in Heq as ->.
  - split; [discriminate|]. intros (rest & -> & _).
    by rewrite skip_prefix_app in Hs.
Qed.

Lemma exec_Seq r1 r2 s k :
  exec (Seq r1 r2) s k = exec r1 s (λ s', exec r2 s' k).
Proof. reflexivity. Qed.

Lemma exec_Opt r s k : exec (Opt r) s k = exec r s k || k s.
Proof. reflexivity. Qed.

Lemma exec_End_true s k : exec End s k = true ↔ s = "" ∧ k "" = true.
Proof.
  destruct s; simpl; [tauto|].
  split; [discriminate|]. by intros [? _].
Qed.

Lemma exec_digits_true s k :
  exec_digits s k = true ↔
  ∃ ds rest, s = ds +:+ rest ∧ all_digits ds = true ∧ k rest = true.
Proof.
  induction s as [|c s IH]; simpl.
  - split.
    + intros Hk. by exists "", "".
    + intros (ds & rest & Heq & _ & Hk).
      destruct ds; [|discriminate Heq]. by destruct rest.
  - rewrite orb_true_iff, andb_true_iff, IH. split.
    + intros [[Hc (ds & rest & -> & Hds & Hk)]|Hk].
      * exists (String c ds), rest. simpl. by rewrite Hc, Hds.
      * by exists "", (String c s).
    + intros (ds & rest & Heq & Hds & Hk). destruct ds as [|d ds].
      * right. rewrite string_app_nil_l in Heq. by subst rest.
      * rewrite string_app_cons in Heq. injection Heq as -> ->.
        simpl in Hds. apply andb_true_iff in Hds as [Hc Hds].
        left. split; [done|]. by exists ds, rest.
Qed.

Lemma test_true r s :
  test r s = true ↔
  ∃ before rest, s = before +:+ rest ∧ exec r rest (λ _, true) = true.
Proof.
  induction s as [|c s IH]; simpl; rewrite orb_true_iff.
  - split.
    + intros [He|?]; [|done]. by exists "", "".
    + intros (before & rest & Heq & He). left.
      destruct before; [|discriminate Heq]. by destruct rest.
  - rewrite IH. split.
    + intros [He|(before & rest & -> & He)].
      * by exists "", (String c s).
      * by exists (String c before), rest.
    + intros (before & rest & Heq & He). destruct before as [|b before].
      * left. rewrite string_app_nil_l in Heq. by subst rest.
      * right. rewrite string_app_cons in Heq. injection Heq as -> ->.
        by exists before, rest.
Qed.

(** A pattern without [\d*] and [$] matches at the start of [s] exactly
    when [s] starts with one of the strings of its language. *)
Lemma exec_lang r : star_free r = true → ∀ s k,
  exec r s k = true ↔ ∃ x rest, x ∈ lang r ∧ s = x +:+ rest ∧ k rest = true.
Proof.
  induction r as [p|r1 IH1 r2 IH2|r1 IH1 r2 IH2|r1 IH1| |];
    intros Hsf s k; simpl in Hsf; try discriminate; simpl lang.
  - rewrite exec_Str_true. split.
    + intros (rest & -> & Hk). exists p, rest. split; [by left|done].
    + intros (x & rest & Hx & -> & Hk). apply list_elem_of_singleton in Hx as ->.
      exists rest; split; [reflexivity|exact Hk].
  - apply andb_true_iff in Hsf as [H1 H2]. simpl exec. rewrite (IH1 H1). split.
    + intros (x & rest & Hx & -> & He). apply (IH2 H2) in He
        as (y & rest' & Hy & -> & Hk).
      exists (x +:+ y), rest'. split; [|split; [symmetry; apply string_app_assoc|exact Hk]].
      apply list_elem_of_bind. exists x. split; [|exact Hx].
      apply list_elem_of_fmap. exists y. split; [reflexivity|exact Hy].
    + intros (z & rest & Hz & -> & Hk).
      apply list_elem_of_bind in Hz as (x & Hz & Hx).
      apply list_elem_of_fmap in Hz as (y & -> & Hy).
      exists x, (y +:+ rest). split; [exact Hx|].
      split; [apply string_app_assoc|]. apply (IH2 H2).
      exists y, rest. split; [exact Hy|split; [reflexivity|exact Hk]].
  - apply andb_true_iff in Hsf as [H1 H2]. simpl exec.
    rewrite orb_true_iff, (IH1 H1), (IH2 H2). split.
    + intros [(x & rest & Hx & -> & Hk)|(x & rest & Hx & -> & Hk)];
        exists x, rest; (split; [apply elem_of_app; auto|split; [reflexivity|exact Hk]]).
    + intros (x & rest & [Hx|Hx]%elem_of_app & -> & Hk); [left|right];
        exists x, rest; (split; [exact Hx|split; [reflexivity|exact Hk]]).
  - simpl exec. rewrite orb_true_iff, (IH1 Hsf). split.
    + intros [(x & rest & Hx & -> & Hk)|Hk].
      * exists x, rest. split; [apply elem_of_app; auto|split; [reflexivity|exact Hk]].
      * exists "", s. split; [|split; [reflexivity|exact Hk]]. apply elem_of_app. right. by left.
    + intros (x & rest & [Hx|Hx]%elem_of_app & -> & Hk).
      * left. exists x, rest. split; [exact Hx|split; [reflexivity|exact Hk]].
      * apply list_elem_of_singleton in Hx as ->. right. exact Hk.
Qed.
(** Such a pattern followed by [$] tests the end of the string. *)
Lemma test_anchored r s :
  star_free r = true →
  test (Seq r End) s = true ↔ ∃ x, x ∈ lang r ∧ ends_with s x.
Proof.
  intros Hsf. rewrite test_true. split.
  - intros (before & rest & -> & He). rewrite exec_Seq in He.
    apply (exec_lang r Hsf) in He as (x & rest' & Hx & -> & He).
    apply exec_End_true in He as [-> _].
    exists x. split; [exact Hx|]. exists before. by rewrite string_app_nil_r.
  - intros (x & Hx & before & ->). exists before, x. split; [reflexivity|].
    rewrite exec_Seq. apply (exec_lang r Hsf). exists x, "".
    split; [exact Hx|]. split; [by rewrite string_app_nil_r|reflexivity].
Qed.

Lemma test_Str_contains p s : test (Str p) s = true ↔ contains s p.
Proof.
  rewrite test_true. unfold contains. split.
  - intros (before & rest & -> & He).
    apply exec_Str_true in He as (after & -> & _). eauto.
  - intros (before & after & ->). exists before, (p +:+ after).
    split; [done|]. apply exec_Str_true. eauto.
Qed.

Lemma test_false_iff r s (P : Prop) :
  (test r s = true ↔ P) → (test r s = false ↔ ¬ P).
Proof.
  intros HP. rewrite <-HP. destruct (test r s); split; done.
Qed.

Lemma is_suffix_app x y : is_suffix y (x +:+ y) = true.
Proof.
  induction x as [|c x IH].
  - rewrite string_app_nil_l.
    destruct y; simpl; [done|]. by rewrite bool_decide_eq_true_2.
  - rewrite string_app_cons. simpl. rewrite IH. apply orb_true_r.
Qed.

(** Two ends of one string: one of them is the end of the other. *)
Lemma ends_with_both s x y :
  ends_with s x → ends_with s y → is_suffix x y || is_suffix y x = true.
Proof.
  intros [u Hu] [v Hv]. rewrite Hu in Hv. clear Hu.
  revert v Hv. induction u as [|c u IH]; intros v Hv.
  - rewrite string_app_nil_l in Hv. subst x.
    rewrite is_suffix_app. apply orb_true_r.
  - destruct v as [|d v].
    + rewrite string_app_nil_l in Hv. subst y.
      by rewrite is_suffix_app.
    + rewrite !string_app_cons in Hv. injection Hv as _ Hv. by apply (IH v).
Qed.

(** Two anchored patterns none of whose strings is the end of another one
    accept no common string. *)
Lemma anchored_disjoint r1 r2 s :
  star_free r1 = true → star_free r2 = true →
  forallb (λ x, forallb (λ y, negb (is_suffix x y || is_suffix y x)) (lang r2))
    (lang r1) = true →
  test (Seq r1 End) s = true → test (Seq r2 End) s = true → False.
Proof.
  intros H1 H2 Hall Ht1 Ht2.
  apply (test_anchored r1 s H1) in Ht1 as (x & Hx & Hsx).
  apply (test_anchored r2 s H2) in Ht2 as (y & Hy & Hsy).
  rewrite forallb_forall in Hall.
  apply list_elem_of_In, Hall in Hx. rewrite forallb_forall in Hx.
  apply list_elem_of_In, Hx in Hy.
  by rewrite (ends_with_both s x y Hsx Hsy) in Hy.
Qed.

(** X7. [assetFilter] answers [false], so that the asset is left out of the
    size warnings, exactly for the names that end with a dot and one of
    [map], [png], [jpg], [gif], [glb], [webm]. *)
Theorem assetFilter_false_iff (assetFilename : string) :
  assetFilter assetFilename = false ↔
  ∃ ext, ext ∈ ["map"; "png"; "jpg"; "gif"; "glb"; "webm"] ∧
         ends_with assetFilename ("." +:+ ext).
Proof.
  unfold assetFilter. rewrite negb_false_iff.
  unfold asset_filter_pattern. rewrite test_anchored by reflexivity.
  change (lang (Seq (Str ".") (alts "map" ["png"; "jpg"; "gif"; "glb"; "webm"])))
    with ((λ e, "." +:+ e) <$> ["map"; "png"; "jpg"; "gif"; "glb"; "webm"]).
  split.
  - intros (x & Hx & Hends).
    apply list_elem_of_fmap in Hx as (ext & -> & Hext). by exists ext.
  - intros (ext & Hext & Hends). exists ("." +:+ ext). split; [|exact Hends].
    apply list_elem_of_fmap. by exists ext.
Qed.

(** X8. The [exclude] function of the rule for [.js] files answers [true]
    exactly for the paths in which [node_modules] occurs and
    [node_modules/hubs], written with a slash, does not. *)
Theorem exclude_true_iff (modulePath : string) :
  exclude modulePath = true ↔
  contains modulePath "node_modules" ∧
  ¬ contains modulePath "node_modules/hubs".
Proof.
  unfold exclude. rewrite andb_true_iff, negb_true_iff.
  rewrite test_Str_contains.
  by rewrite (test_false_iff _ _ _ (test_Str_contains _ _)).
Qed.

(** X9. On a path without any slash, as the paths of Windows are, [exclude]
    answers [true] as soon as [node_modules] occurs in it: the modules of
    [hubs] are excluded like the others. *)
Theorem exclude_without_slash (modulePath : string) :
  ¬ contains modulePath "/" →
  exclude modulePath = true ↔ contains modulePath "node_modules".
Proof.
  intros Hno. unfold exclude. rewrite andb_true_iff, negb_true_iff.
  rewrite test_Str_contains.
  rewrite (test_false_iff _ _ _ (test_Str_contains _ _)).
  split; [by intros [? _]|].
  intros Hc. split; [exact Hc|]. intros (before & after & Heq).
  apply Hno. exists (before +:+ "node_modules"), ("hubs" +:+ after).
  rewrite Heq, !string_app_assoc. reflexivity.
Qed.

(** X10. The pattern given to [cors] accepts an origin exactly when it ends
    with [hubs.local], or with [hubs.local:] followed by digits, possibly
    none; what comes before [hubs.local] is not looked at. *)
Theorem cors_origin_iff (origin : string) :
  test cors_origin origin = true ↔
  ∃ before port,
    origin = before +:+ "hubs.local" +:+ port ∧
    (port = "" ∨ ∃ ds, port = ":" +:+ ds ∧ all_digits ds = true).
Proof.
  rewrite test_true. unfold cors_origin. split.
  - intros (before & rest & -> & He). exists before.
    rewrite !exec_Seq in He.
    apply exec_Str_true in He as (r1 & -> & He).
    rewrite exec_Opt in He. apply orb_true_iff in He as [He|He].
    + rewrite exec_Seq in He. apply exec_Str_true in He as (r2 & -> & He).
      apply exec_digits_true in He as (ds & r3 & -> & Hds & He).
      apply exec_End_true in He as [-> _].
      exists (":" +:+ ds +:+ ""). split; [reflexivity|]. right.
      exists ds. by rewrite string_app_nil_r.
    + apply exec_End_true in He as [-> _]. exists "". split; [reflexivity|].
      by left.
  - intros (before & port & -> & Hport).
    exists before, ("hubs.local" +:+ port). split; [reflexivity|].
    rewrite !exec_Seq. apply exec_Str_true. exists port. split; [reflexivity|].
    rewrite exec_Opt. apply orb_true_iff.
    destruct Hport as [->|(ds & -> & Hds)]; [by right|left].
    rewrite exec_Seq. apply exec_Str_true. exists ds. split; [reflexivity|].
    apply exec_digits_true. exists ds, "".
    split; [by rewrite string_app_nil_r|]. by split.
Qed.

(** X11. Among the rules whose [test] is a regular expression, a file name
    is accepted by two of them only when they are the rule for [.js] files
    and the rule for workers. *)
Theorem rule_tests_overlap (f : string) i j n1 r1 n2 r2 :
  rule_tests !! i = Some (n1, r1) →
  rule_tests !! j = Some (n2, r2) →
  i < j →
  test r1 f = true →
  test r2 f = true →
  n1 = "babel-loader (js)" ∧ n2 = "worker-loader".
Proof.
  intros Hi Hj Hlt Ht1 Ht2. unfold rule_tests in Hi, Hj.
  repeat (destruct i as [|i]; simpl in Hi; [|try discriminate Hi]);
    injection Hi as <- <-;
    (repeat (destruct j as [|j]; simpl in Hj; [|try discriminate Hj]));
    try lia; injection Hj as <- <-;
    first [ by split
          | exfalso;
            refine (anchored_disjoint _ _ f _ _ _ Ht1 Ht2); reflexivity ].
Qed.

End Patterns.

(** ** The file-name generator *)

Section Generator_properties.
Import Stdlib.Strings.Ascii.
Import Webpack.
Context `{NodePath}.

Implicit Types (s p a : string) (c : ascii).

Lemma split_not_nil c s : split c s ≠ [].
Proof.
  destruct s as [|b s]; simpl; [done|].
  case_decide; [done|]. by destruct (split c s).
Qed.

(** Splitting around a separator. *)
Lemma split_app_sep c a s :
  split c (a +:+ String c s) = split c a ++ split c s.
Proof.
  induction a as [|b a IH].
  - rewrite string_app_nil_l. simpl. by rewrite decide_True.
  - rewrite string_app_cons. simpl. rewrite IH. case_decide; [done|].
    pose proof (split_not_nil c a) as Hne.
    by destruct (split c a).
Qed.

(** [join] undoes [split]. *)
Lemma join_split c s : join c (split c s) = s.
Proof.
  induction s as [|b s IH]; [done|]. simpl.
  pose proof (split_not_nil c s) as Hne.
  case_decide as Hb.
  - subst b. destruct (split c s) as [|x xs] eqn:Hs; [done|].
    change (join c ("" :: x :: xs)) with ("" +:+ String c (join c (x :: xs))).
    by rewrite IH.
  - destruct (split c s) as [|x xs] eqn:Hs; [done|].
    destruct xs as [|y ys].
    + simpl in *. by rewrite IH.
    + change (join c (String b x :: y :: ys))
        with (String b (x +:+ String c (join c (y :: ys)))).
      change (join c (x :: y :: ys))
        with (x +:+ String c (join c (y :: ys))) in IH.
      by rewrite IH.
Qed.

(** Dropping the first part of a path that starts with the directory [a]. *)
Lemma shift_strips c a s :
  split c a = [a] →
  startsWith s (a +:+ String c "") = true →
  join c (shift (split c s)) = strip_prefix (a +:+ String c "") s.
Proof.
  intros Ha [rest ->]%startsWith_true.
  rewrite strip_prefix_app, string_app_assoc.
  change (String c "" +:+ rest) with (String c rest).
  rewrite split_app_sep, Ha. simpl. apply join_split.
Qed.

Lemma shift3_strips c a1 a2 a3 s :
  split c a1 = [a1] → split c a2 = [a2] → split c a3 = [a3] →
  startsWith s
    (a1 +:+ String c "" +:+ a2 +:+ String c "" +:+ a3 +:+ String c "") = true →
  join c (shift (shift (shift (split c s)))) =
    strip_prefix
      (a1 +:+ String c "" +:+ a2 +:+ String c "" +:+ a3 +:+ String c "") s.
Proof.
  intros Ha1 Ha2 Ha3 [rest ->]%startsWith_true.
  rewrite strip_prefix_app, !string_app_assoc.
  change (String c "" +:+ rest) with (String c rest).
  change (String c "" +:+ a3 +:+ String c rest)
    with (String c (a3 +:+ String c rest)).
  change (String c "" +:+ a2 +:+ String c (a3 +:+ String c rest))
    with (String c (a2 +:+ String c (a3 +:+ String c rest))).
  rewrite !split_app_sep, Ha1, Ha2, Ha3. simpl. apply join_split.
Qed.

(** X12. The generator gives the directory of the file, followed by the
    separator, without its leading [src] directory if it has one and then
    without a leading [node_modules/hubs/src] if it has one, followed by
    the template of the name: the two [split], [shift] and [join] sequences
    remove exactly these prefixes. *)
Theorem generator_filename_strips (filename : string) :
  sep = "/"%char ∨ sep = "\"%char →
  generator_filename filename =
    strip_prefix
      ("node_modules" +:+ sep_string +:+ "hubs" +:+ sep_string +:+
       "src" +:+ sep_string)
      (strip_prefix ("src" +:+ sep_string) (dirname filename +:+ sep_string))
    +:+ "[name]-[contenthash].[ext]".
Proof.
  intros Hsep. unfold generator_filename, sep_string.
  set (root := dirname filename +:+ String sep "").
  assert (Hsrc : split sep "src" = ["src"])
    by (destruct Hsep as [-> | ->]; reflexivity).
  assert (Hnm : split sep "node_modules" = ["node_modules"])
    by (destruct Hsep as [-> | ->]; reflexivity).
  assert (Hhubs : split sep "hubs" = ["hubs"])
    by (destruct Hsep as [-> | ->]; reflexivity).
  assert (Hroot :
    (if startsWith root ("src" +:+ String sep "")
     then join sep (shift (split sep root)) else root)
    = strip_prefix ("src" +:+ String sep "") root).
  { destruct (startsWith root ("src" +:+ String sep "")) eqn:Hs.
    - by apply shift_strips.
    - by rewrite strip_prefix_other. }
  rewrite Hroot. set (root' := strip_prefix _ root). f_equal.
  destruct (startsWith root' _) eqn:Hs.
  - by apply shift3_strips.
  - by rewrite strip_prefix_other.
Qed.

End Generator_properties.

(** ** The certificate of the development server *)

Section Certificate_properties.
Import Stdlib.Strings.Ascii.
Import Webpack.

Implicit Types (fs : gmap (list string) Entry) (dir p : list string)
  (pems : Pems).

Lemma fs_bind_unfold {A B} (c : Fs A) (k : A → Fs B) fs :
  (c ≫= k) fs = match c fs with
                | Ok a fs' => k a fs'
                | Err e fs' => Err e fs'
                end.
Proof. reflexivity. Qed.

Lemma parent_snoc p (x : string) : parent (p ++ [x]) = p.
Proof.
  unfold parent. rewrite length_app. simpl.
  replace (length p + 1 - 1) with (length p) by lia.
  by rewrite take_app_length.
Qed.

Lemma parent_certs_file dir (x : string) :
  parent (dir ++ ["certs"; x]) = dir ++ ["certs"].
Proof.
  change (dir ++ ["certs"; x]) with (dir ++ ["certs"] ++ [x]).
  rewrite app_assoc. apply parent_snoc.
Qed.

Lemma certs_ne_file dir (x : string) : dir ++ ["certs"] ≠ dir ++ ["certs"; x].
Proof. intros Heq. apply app_inv_head in Heq. discriminate Heq. Qed.

Lemma key_ne_cert dir : dir ++ ["certs"; "key.pem"] ≠ dir ++ ["certs"; "cert.pem"].
Proof. intros Heq. apply app_inv_head in Heq. discriminate Heq. Qed.

(** X13. When the [certs] directory holds [key.pem] and [cert.pem],
    [createHTTPSConfig] returns their contents and leaves the file system as
    it is; what the generator would give plays no part. *)
Theorem createHTTPSConfig_reads_existing dir pems fs (k c : string) :
  is_Some (fs !! (dir ++ ["certs"])) →
  fs !! (dir ++ ["certs"; "key.pem"]) = Some (File k) →
  fs !! (dir ++ ["certs"; "cert.pem"]) = Some (File c) →
  createHTTPSConfig dir pems fs = Ok {| key := k; cert := c |} fs.
Proof.
  intros Hc Hk Hcert. unfold createHTTPSConfig.
  rewrite fs_bind_unfold. unfold existsSync. rewrite bool_decide_eq_true_2 by done.
  rewrite fs_bind_unfold. unfold readFileSync at 1. rewrite Hk.
  rewrite fs_bind_unfold. unfold readFileSync. by rewrite Hcert.
Qed.

(** X14. When [certs] exists but holds no [key.pem], [createHTTPSConfig]
    raises the error of the missing file and writes nothing: it does not
    fall back on generating a certificate. *)
Theorem createHTTPSConfig_missing_key dir pems fs :
  fs !! (dir ++ ["certs"]) = Some Dir →
  fs !! (dir ++ ["certs"; "key.pem"]) = None →
  createHTTPSConfig dir pems fs = Err (ENOENT (dir ++ ["certs"; "key.pem"])) fs.
Proof.
  intros Hc Hk. unfold createHTTPSConfig.
  rewrite fs_bind_unfold. unfold existsSync.
  rewrite bool_decide_eq_true_2 by (by rewrite Hc).
  rewrite fs_bind_unfold. unfold readFileSync. rewrite Hk.
  unfold parent_error. by rewrite parent_certs_file, Hc.
Qed.

(** X15. As soon as something exists at [certs], whatever
    [createHTTPSConfig] does, returning or raising, the file system is
    unchanged. *)
Theorem createHTTPSConfig_existing_never_writes dir pems fs :
  is_Some (fs !! (dir ++ ["certs"])) →
  match createHTTPSConfig dir pems fs with
  | Ok _ fs' | Err _ fs' => fs' = fs
  end.
Proof.
  intros Hc. unfold createHTTPSConfig.
  rewrite fs_bind_unfold. unfold existsSync. rewrite bool_decide_eq_true_2 by done.
  rewrite fs_bind_unfold. unfold readFileSync at 1.
  destruct (fs !! (dir ++ ["certs"; "key.pem"])) as [[|k]|]; [done| |done].
  rewrite fs_bind_unfold. unfold readFileSync.
  by destruct (fs !! (dir ++ ["certs"; "cert.pem"])) as [[|c]|].
Qed.

(** Generating the certificate: the three writes. *)
Lemma createHTTPSConfig_generates_run dir pems fs :
  fs_wf fs →
  fs !! dir = Some Dir →
  fs !! (dir ++ ["certs"]) = None →
  createHTTPSConfig dir pems fs =
    Ok {| key := pems_private pems; cert := pems_cert pems |}
      (<[dir ++ ["certs"; "key.pem"] := File (pems_private pems)]>
         (<[dir ++ ["certs"; "cert.pem"] := File (pems_cert pems)]>
            (<[dir ++ ["certs"] := Dir]> fs))).
Proof.
  intros Hwf Hdir Hc.
  assert (Hnone : ∀ x : string, fs !! (dir ++ ["certs"; x]) = None).
  { intros x. apply eq_None_not_Some. intros Hsome.
    destruct (Hwf _ Hsome) as [Hnil|Hpar].
    - by destruct dir.
    - rewrite parent_certs_file, Hc in Hpar. discriminate Hpar. }
  set (certs := dir ++ ["certs"]) in *.
  set (keyp := dir ++ ["certs"; "key.pem"]).
  set (certp := dir ++ ["certs"; "cert.pem"]).
  set (fs1 := <[certs := Dir]> fs).
  set (fs2 := <[certp := File (pems_cert pems)]> fs1).
  assert (Hck : certs ≠ keyp) by apply certs_ne_file.
  assert (Hcc : certs ≠ certp) by apply certs_ne_file.
  assert (Hkc : keyp ≠ certp) by apply key_ne_cert.
  unfold createHTTPSConfig.
  rewrite fs_bind_unfold. unfold existsSync. fold certs.
  rewrite bool_decide_eq_false_2 by (rewrite Hc; by intros [? ?]).
  rewrite fs_bind_unfold. unfold mkdirSync. rewrite Hc.
  unfold parent_error. unfold certs at 1. rewrite parent_snoc, Hdir.
  fold fs1. rewrite fs_bind_unfold. unfold writeFileSync at 1. fold certp.
  assert (fs1 !! certp = None) as ->.
  { unfold fs1. rewrite lookup_insert_ne by done. apply Hnone. }
  unfold parent_error. unfold certp at 1. rewrite parent_certs_file.
  fold certs. unfold fs1 at 1. rewrite lookup_insert_eq.
  fold certp. fold fs2. rewrite fs_bind_unfold. unfold writeFileSync.
  fold keyp.
  assert (fs2 !! keyp = None) as ->.
  { unfold fs2, fs1. rewrite !lookup_insert_ne by done. apply Hnone. }
  unfold parent_error. unfold keyp at 1. rewrite parent_certs_file.
  fold certs. unfold fs2 at 1, fs1 at 1.
  rewrite lookup_insert_ne, lookup_insert_eq by done. reflexivity.
Qed.

(** X16. In a well-formed file system where [__dirname] is a directory
    without [certs], [createHTTPSConfig] returns the generated key and
    certificate; it creates the directory [certs] with the files [key.pem]
    and [cert.pem] that hold them, touches no other path, and leaves the
    file system well formed. *)
Theorem createHTTPSConfig_generates dir pems fs :
  fs_wf fs →
  fs !! dir = Some Dir →
  fs !! (dir ++ ["certs"]) = None →
  ∃ fs',
    createHTTPSConfig dir pems fs =
      Ok {| key := pems_private pems; cert := pems_cert pems |} fs' ∧
    fs' !! (dir ++ ["certs"]) = Some Dir ∧
    fs' !! (dir ++ ["certs"; "key.pem"]) = Some (File (pems_private pems)) ∧
    fs' !! (dir ++ ["certs"; "cert.pem"]) = Some (File (pems_cert pems)) ∧
    (∀ p, p ≠ dir ++ ["certs"] → p ≠ dir ++ ["certs"; "key.pem"] →
          p ≠ dir ++ ["certs"; "cert.pem"] → fs' !! p = fs !! p) ∧
    fs_wf fs'.
Proof.
  intros Hwf Hdir Hc.
  eexists. split; [by apply createHTTPSConfig_generates_run|].
  assert (Hnone : ∀ x : string, fs !! (dir ++ ["certs"; x]) = None).
  { intros x. apply eq_None_not_Some. intros Hsome.
    destruct (Hwf _ Hsome) as [Hnil|Hpar].
    - by destruct dir.
    - rewrite parent_certs_file, Hc in Hpar. discriminate Hpar. }
  set (certs := dir ++ ["certs"]) in *.
  set (keyp := dir ++ ["certs"; "key.pem"]).
  set (certp := dir ++ ["certs"; "cert.pem"]).
  set (fs3 := <[keyp := _]> _).
  assert (Hck : certs ≠ keyp) by apply certs_ne_file.
  assert (Hcc : certs ≠ certp) by apply certs_ne_file.
  assert (Hkc : keyp ≠ certp) by apply key_ne_cert.
  assert (Hcerts3 : fs3 !! certs = Some Dir).
  { unfold fs3. rewrite !lookup_insert_ne by done. apply lookup_insert_eq. }
  split; [exact Hcerts3|]. split; [|split; [|split]].
  - unfold fs3. apply lookup_insert_eq.
  - unfold fs3. rewrite lookup_insert_ne by done. apply lookup_insert_eq.
  - intros p H1 H2 H3. unfold fs3. by rewrite !lookup_insert_ne.
  - intros p Hp.
    assert (Hkeep : ∀ q, fs !! q = Some Dir → fs3 !! q = Some Dir).
    { intros q Hq. unfold fs3.
      rewrite !lookup_insert_ne; [done|..]; intros <-;
        unfold keyp, certp in Hq; rewrite ?Hnone, ?Hc in Hq; discriminate Hq. }
    destruct (decide (p = keyp)) as [->|Hpk].
    { right. unfold keyp. by rewrite parent_certs_file. }
    destruct (decide (p = certp)) as [->|Hpc].
    { right. unfold certp. by rewrite parent_certs_file. }
    destruct (decide (p = certs)) as [->|Hpd].
    { right. unfold certs. rewrite parent_snoc. by apply Hkeep. }
    assert (Hp0 : is_Some (fs !! p)).
    { revert Hp. unfold fs3. by rewrite !lookup_insert_ne. }
    destruct (Hwf p Hp0) as [->|Hpar]; [by left|right]. by apply Hkeep.
Qed.

(** X17. After a call that generated the certificate, a second call returns
    the same key and certificate, whatever the generator would give then,
    and changes nothing. *)
Theorem createHTTPSConfig_twice dir pems1 pems2 fs :
  fs_wf fs →
  fs !! dir = Some Dir →
  fs !! (dir ++ ["certs"]) = None →
  ∃ https fs',
    createHTTPSConfig dir pems1 fs = Ok https fs' ∧
    createHTTPSConfig dir pems2 fs' = Ok https fs'.
Proof.
  intros Hwf Hdir Hc. eexists _, _.
  split; [by apply createHTTPSConfig_generates_run|].
  set (fs' := <[_ := _]> _).
  assert (Hck : dir ++ ["certs"] ≠ dir ++ ["certs"; "key.pem"])
    by apply certs_ne_file.
  assert (Hcc : dir ++ ["certs"] ≠ dir ++ ["certs"; "cert.pem"])
    by apply certs_ne_file.
  pose proof (key_ne_cert dir) as Hkc.
  unfold createHTTPSConfig.
  rewrite fs_bind_unfold. unfold existsSync.
  rewrite bool_decide_eq_true_2.
  2: { unfold fs'. rewrite !lookup_insert_ne by done.
       rewrite lookup_insert_eq. by eexists. }
  rewrite fs_bind_unfold. unfold readFileSync at 1.
  unfold fs' at 1. rewrite lookup_insert_eq.
  rewrite fs_bind_unfold. unfold readFileSync.
  unfold fs' at 1. rewrite lookup_insert_ne by done.
  by rewrite lookup_insert_eq.
Qed.

End Certificate_properties.

(** ** The exported function *)

Section Exports_properties.
Import Stdlib.Strings.Ascii.
Import Webpack.
Context `{Dotenv}.

Implicit Types (fs : gmap (list string) Entry) (dir : list string)
  (pems : Pems) (env : option CliEnv) (argv : Argv)
  (process_env : gmap string string).

Lemma object_assign_other (target : gmap string string) source (k : string) :
  k ∉ source.*1 → object_assign target source !! k = target !! k.
Proof.
  unfold object_assign. revert target.
  induction source as [|[k0 v0] source IH]; intros target Hk; [done|].
  simpl. rewrite IH.
  - apply lookup_insert_ne. intros ->. apply Hk. by left.
  - intros Hin. apply Hk. by right.
Qed.

(** [Object.assign] sets every field of a source without repeated keys. *)
Lemma object_assign_field (target : gmap string string) source (k v : string) :
  NoDup source.*1 → (k, v) ∈ source →
  object_assign target source !! k = Some v.
Proof.
  unfold object_assign. revert target.
  induction source as [|[k0 v0] source IH]; intros target Hnd Hin.
  { by apply elem_of_nil in Hin. }
  simpl in *. apply NoDup_cons in Hnd as [Hk0 Hnd].
  apply elem_of_cons in Hin as [Heq|Hin].
  - injection Heq as -> ->.
    rewrite (object_assign_other _ source k0 Hk0).
    apply lookup_insert_eq.
  - by apply IH.
Qed.

Lemma local_settings_NoDup : NoDup local_settings.*1.
Proof. apply (bool_decide_unpack _). by vm_compute. Qed.

Lemma or_default_ne (a : option string) (d : string) :
  d ≠ "" → or_default a d ≠ "".
Proof.
  intros Hd. unfold or_default. destruct a as [s|]; [|done].
  by case_decide.
Qed.

(** X18. In local mode, once the certificate is there, the function returns
    and the local settings win over whatever [process.env] held and the
    [.env] files gave: [process.env] has every local setting, the public
    path is the local asset server, and every field of the object given to
    [DefinePlugin] that has a local setting carries it. *)
Theorem module_exports_local_settings_win dir pems argv process_env fs
    options fs' :
  createHTTPSConfig dir pems fs = Ok options fs' →
  ∃ config process_env',
    module_exports dir pems (Some (mkCliEnv true)) argv process_env fs =
      Ok (config, process_env') fs' ∧
    (∀ k v, (k, v) ∈ local_settings → process_env' !! k = Some v) ∧
    publicPath config = "https://localhost:8989/" ∧
    (∀ k v d, (k, v) ∈ local_settings →
              (k, d) ∈ define_process_env config → d = Some v).
Proof.
  intros Hcert. unfold module_exports.
  rewrite fs_bind_unfold, Hcert. eexists _, _. split; [reflexivity|].
  set (penv := load_env (Some (mkCliEnv true)) process_env).
  assert (Hlocal : ∀ k v, (k, v) ∈ local_settings → penv !! k = Some v).
  { intros k v Hin. unfold penv, load_env. cbn [from_option local].
    by apply object_assign_field; [apply local_settings_NoDup|]. }
  split; [exact Hlocal|]. split.
  - simpl. rewrite (Hlocal "BASE_ASSETS_PATH" "https://localhost:8989/"); [done|].
    unfold local_settings. do 4 right. by left.
  - intros k v d Hkv Hkd. simpl in Hkd.
    assert (Hnot : k ≠ "DISABLE_BRANDING" ∧ k ≠ "NODE_ENV" ∧
                   k ≠ "BUILD_VERSION" ∧ k ≠ "CONFIGURABLE_SERVICES" ∧
                   k ≠ "UPLOADS_HOST").
    { apply (list_elem_of_fmap_2 fst) in Hkv. simpl in Hkv.
      repeat split; intros ->; revert Hkv;
        apply (bool_decide_unpack _); by vm_compute. }
    destruct Hnot as (N1 & N2 & N3 & N4 & N5).
    repeat (apply elem_of_cons in Hkd as [Hkd|Hkd];
            [injection Hkd as -> ->; first [done | by rewrite <-(Hlocal _ _ Hkv)]|]).
    by apply elem_of_nil in Hkd.
Qed.

(** X19. Once the certificate is there, the function returns; the host, the
    port and the two allowed hosts of the development server are never empty.
    With a non-empty [HOST_IP] the server listens on it and allows it;
    without one it listens on [0.0.0.0] while the host it allows is
    [localhost]. *)
Theorem module_exports_hosts dir pems env argv process_env fs options fs' :
  createHTTPSConfig dir pems fs = Ok options fs' →
  ∃ config process_env' allowed internal,
    module_exports dir pems env argv process_env fs =
      Ok (config, process_env') fs' ∧
    server_options (devServer config) = options ∧
    allowedHosts (devServer config) = [allowed; internal] ∧
    host (devServer config) ≠ "" ∧ port (devServer config) ≠ "" ∧
    allowed ≠ "" ∧ internal ≠ "" ∧
    match process_env' !! "HOST_IP" with
    | Some ip =>
        if decide (ip = "")
        then host (devServer config) = "0.0.0.0" ∧ allowed = "localhost"
        else host (devServer config) = ip ∧ allowed = ip
    | None => host (devServer config) = "0.0.0.0" ∧ allowed = "localhost"
    end.
Proof.
  intros Hcert. unfold module_exports.
  rewrite fs_bind_unfold, Hcert. eexists _, _, _, _.
  split; [reflexivity|]. simpl.
  split; [reflexivity|]. split; [reflexivity|].
  repeat (split; [by apply or_default_ne|]).
  unfold or_default.
  destruct (load_env env process_env !! "HOST_IP") as [ip|]; [|done].
  by case_decide.
Qed.

(** X20. The [local] switch has no effect on the development server: with
    and without it, from the same [process.env] and file system, the
    function raises the same error or returns configurations with the same
    [devServer], and it leaves the same file system. *)
Theorem module_exports_devServer_ignores_local dir pems env1 env2 argv
    process_env fs :
  match module_exports dir pems env1 argv process_env fs,
        module_exports dir pems env2 argv process_env fs with
  | Ok (config1, _) fs1, Ok (config2, _) fs2 =>
      devServer config1 = devServer config2 ∧ fs1 = fs2
  | Err e1 fs1, Err e2 fs2 => e1 = e2 ∧ fs1 = fs2
  | _, _ => False
  end.
Proof.
  unfold module_exports. rewrite !fs_bind_unfold.
  destruct (createHTTPSConfig dir pems fs) as [options fs'|e fs']; [|done].
  unfold mret, Fs_ret. split; [|reflexivity]. simpl.
  assert (Hsame : ∀ k : string, k ∉ local_settings.*1 →
    load_env env1 process_env !! k = load_env env2 process_env !! k).
  { intros k Hk. unfold load_env.
    destruct (from_option local false env1), (from_option local false env2);
      by rewrite ?(object_assign_other _ _ k Hk). }
  rewrite !(Hsame "HOST_IP"), !(Hsame "PORT"), !(Hsame "INTERNAL_HOSTNAME");
    [reflexivity|..]; apply (bool_decide_unpack _); by vm_compute.
Qed.

End Exports_properties.

(** * The further properties on concrete inputs *)

Section Tracking_examples.
Import Demo Scenes.

Lemma tick_writes_last_transform_witness :
  provides aframe_hands hands ∧
  links_live hands (pairs twice) (objects twice) ∧
  ∃ w',
    (∀ fuel, 2 ≤ fuel → tick fuel aframe_hands twice = Ret tt w') ∧
    pairs w' = pairs twice ∧
    objects w' !! left_hand = Some (pose T2 fresh) ∧
    objects w' !! right_hand = Some fresh.
Proof.
  split; [apply provides_table|].
  split; [apply links_live_scene; set_solver|].
  destruct (tick_writes_last_transform aframe_hands hands twice)
    as (w' & Hrun & Hp & Hlook).
  - apply provides_table.
  - apply links_live_scene; set_solver.
  - exists w'. split; [exact Hrun|]. split; [exact Hp|].
    split; rewrite Hlook; reflexivity.
Defined.

Lemma tick_twice_same_witness :
  provides aframe_hands hands ∧
  links_live hands (pairs two_hands) (objects two_hands) ∧
  ∃ w', tick 2 aframe_hands two_hands = Ret tt w' ∧
        tick 2 aframe_hands w' = Ret tt w'.
Proof.
  split; [apply provides_table|].
  split; [apply links_live_scene; set_solver|].
  destruct (tick_twice_same aframe_hands hands two_hands) as (w' & Hrun).
  - apply provides_table.
  - apply links_live_scene; set_solver.
  - exists w'. apply Hrun. simpl. lia.
Defined.

Lemma unregister_stops_tracking_witness :
  provides aframe_hands hands ∧
  ∃ w',
    (unregister left_hand ;; tick 2 aframe_hands) two_hands = Ret tt w' ∧
    objects w' !! left_hand = Some fresh ∧
    ∀ l, l ∈ pairs w' → object3D l ≠ left_hand.
Proof.
  split; [apply provides_table|].
  pose proof (unregister_stops_tracking aframe_hands hands two_hands
                left_hand 2 (provides_table hands)) as Hstop.
  destruct ((unregister left_hand ;; tick 2 aframe_hands) two_hands)
    as [[] w'|e w'|] eqn:Hrun; [|discriminate Hrun..].
  exists w'. split; [reflexivity|]. apply Hstop. simpl. lia.
Defined.

Lemma tick_raises_at_missing_object_witness :
  provides aframe_hands hands ∧
  objects with_dangling !! dangling = None ∧
  ∃ objs',
    tick 1 aframe_hands
      (mkStore [mkLink right_hand "right-hand"] scene_objects)
      = Ret tt (mkStore [mkLink right_hand "right-hand"] objs') ∧
    tick 3 aframe_hands with_dangling
      = Raise TypeError (mkStore (pairs with_dangling) objs').
Proof.
  split; [apply provides_table|]. split; [reflexivity|].
  destruct (tick_raises_at_missing_object aframe_hands hands with_dangling
              [mkLink right_hand "right-hand"] (mkLink dangling "left-hand")
              [mkLink left_hand "left-hand"] T1)
    as (objs' & Hpre & Hrun).
  - apply provides_table.
  - reflexivity.
  - intros l Hl _. apply list_elem_of_singleton in Hl as ->. by eexists.
  - reflexivity.
  - reflexivity.
  - exists objs'. split; [apply Hpre|apply Hrun]; simpl; lia.
Defined.


Lemma register_unregister_commute_witness :
  left_hand ≠ right_hand ∧
  (register left_hand "left-hand" ;; unregister right_hand) two_hands =
  (unregister right_hand ;; register left_hand "left-hand") two_hands.
Proof.
  split; [discriminate|].
  apply register_unregister_commute. discriminate.
Defined.

End Tracking_examples.

Section Webpack_examples.
Import Stdlib.Strings.Ascii.
Import Webpack Webpack_demo.

Lemma test_false_not_contains (s sub : string) :
  test (Str sub) s = false → ¬ contains s sub.
Proof. intros Ht Hc. apply test_Str_contains in Hc. congruence. Qed.

(** A path of Windows inside the sources of [hubs]. *)
Lemma exclude_without_slash_witness :
  ¬ contains "C:\hubs\admin\node_modules\hubs\src\hub.js" "/" ∧
  exclude "C:\hubs\admin\node_modules\hubs\src\hub.js" = true.
Proof.
  assert (Hno : ¬ contains "C:\hubs\admin\node_modules\hubs\src\hub.js" "/")
    by (apply test_false_not_contains; reflexivity).
  split; [exact Hno|].
  apply (exclude_without_slash _ Hno).
  exists "C:\hubs\admin\", "\hubs\src\hub.js". reflexivity.
Defined.

Lemma rule_tests_overlap_witness :
  rule_tests !! 1 = Some ("babel-loader (js)", Seq (Str ".js") End) ∧
  rule_tests !! 3 = Some ("worker-loader", Seq (Str ".worker.js") End) ∧
  test (Seq (Str ".js") End) "src/workers/sketchfab.worker.js" = true ∧
  test (Seq (Str ".worker.js") End) "src/workers/sketchfab.worker.js" = true ∧
  "babel-loader (js)" = "babel-loader (js)" ∧ "worker-loader" = "worker-loader".
Proof.
  split; [reflexivity|]. split; [reflexivity|].
  split; [reflexivity|]. split; [reflexivity|].
  apply (rule_tests_overlap "src/workers/sketchfab.worker.js" 1 3
           "babel-loader (js)" (Seq (Str ".js") End)
           "worker-loader" (Seq (Str ".worker.js") End));
    [reflexivity|reflexivity|lia|reflexivity|reflexivity].
Defined.

Lemma generator_filename_strips_witness :
  (sep = "/"%char ∨ sep = "\"%char) ∧
  generator_filename "src/assets/images/logo.png" =
    "assets/images/[name]-[contenthash].[ext]".
Proof.
  split; [by left|].
  rewrite (generator_filename_strips "src/assets/images/logo.png");
    [reflexivity|by left].
Defined.

Lemma fresh_checkout_wf : fs_wf fresh_checkout.
Proof.
  intros p [e Hp]. unfold fresh_checkout in *.
  destruct (decide (p = ["admin"])) as [->|Hne]; [by right|].
  rewrite lookup_insert_ne in Hp by done.
  destruct (decide (p = [])) as [->|Hne']; [by left|].
  rewrite lookup_insert_ne in Hp by done. by rewrite lookup_empty in Hp.
Qed.

Lemma createHTTPSConfig_reads_existing_witness :
  is_Some (with_certs !! (["admin"] ++ ["certs"])) ∧
  createHTTPSConfig ["admin"] generated with_certs =
    Ok {| key := "KEY"; cert := "CERT" |} with_certs.
Proof.
  split; [by eexists|].
  apply (createHTTPSConfig_reads_existing ["admin"] generated with_certs);
    [by eexists|reflexivity|reflexivity].
Defined.

Lemma createHTTPSConfig_missing_key_witness :
  empty_certs !! (["admin"] ++ ["certs"]) = Some Dir ∧
  empty_certs !! (["admin"] ++ ["certs"; "key.pem"]) = None ∧
  createHTTPSConfig ["admin"] generated empty_certs =
    Err (ENOENT ["admin"; "certs"; "key.pem"]) empty_certs.
Proof.
  split; [reflexivity|]. split; [reflexivity|].
  apply (createHTTPSConfig_missing_key ["admin"] generated empty_certs);
    reflexivity.
Defined.

Lemma createHTTPSConfig_existing_never_writes_witness :
  is_Some (empty_certs !! (["admin"] ++ ["certs"])) ∧
  match createHTTPSConfig ["admin"] generated empty_certs with
  | Ok _ fs' | Err _ fs' => fs' = empty_certs
  end.
Proof.
  split; [by eexists|].
  apply (createHTTPSConfig_existing_never_writes ["admin"] generated empty_certs).
  by eexists.
Defined.

Lemma createHTTPSConfig_generates_witness :
  fs_wf fresh_checkout ∧
  fresh_checkout !! ["admin"] = Some Dir ∧
  fresh_checkout !! (["admin"] ++ ["certs"]) = None ∧
  ∃ fs',
    createHTTPSConfig ["admin"] generated fresh_checkout =
      Ok {| key := "NEW KEY"; cert := "NEW CERT" |} fs' ∧
    fs' !! ["admin"; "certs"; "key.pem"] = Some (File "NEW KEY") ∧
    fs' !! ["admin"; "certs"; "cert.pem"] = Some (File "NEW CERT") ∧
    fs_wf fs'.
Proof.
  split; [apply fresh_checkout_wf|]. split; [reflexivity|].
  split; [reflexivity|].
  destruct (createHTTPSConfig_generates ["admin"] generated fresh_checkout)
    as (fs' & Hrun & _ & Hk & Hc & _ & Hwf);
    [apply fresh_checkout_wf|reflexivity|reflexivity|].
  exists fs'. by repeat split.
Defined.

Lemma createHTTPSConfig_twice_witness :
  fs_wf fresh_checkout ∧
  ∃ https fs',
    createHTTPSConfig ["admin"] generated fresh_checkout = Ok https fs' ∧
    createHTTPSConfig ["admin"] generated_later fs' = Ok https fs'.
Proof.
  split; [apply fresh_checkout_wf|].
  apply (createHTTPSConfig_twice ["admin"] generated generated_later
           fresh_checkout);
    [apply fresh_checkout_wf|reflexivity|reflexivity].
Defined.

Lemma module_exports_local_settings_win_witness :
  createHTTPSConfig ["admin"] generated with_certs =
    Ok {| key := "KEY"; cert := "CERT" |} with_certs ∧
  ∃ config process_env',
    module_exports ["admin"] generated (Some (mkCliEnv true))
      (mkArgv (Some "development")) shell_env with_certs =
      Ok (config, process_env') with_certs ∧
    process_env' !! "RETICULUM_SERVER" = Some "localhost:4000" ∧
    publicPath config = "https://localhost:8989/".
Proof.
  split; [reflexivity|].
  destruct (module_exports_local_settings_win ["admin"] generated
              (mkArgv (Some "development")) shell_env with_certs
              {| key := "KEY"; cert := "CERT" |} with_certs eq_refl)
    as (config & process_env' & Hrun & Henv & Hpath & _).
  exists config, process_env'. split; [exact Hrun|]. split; [|exact Hpath].
  apply Henv. unfold local_settings. do 5 right. by left.
Defined.

Lemma module_exports_hosts_witness :
  createHTTPSConfig ["admin"] generated with_certs =
    Ok {| key := "KEY"; cert := "CERT" |} with_certs ∧
  ∃ config process_env' allowed internal,
    module_exports ["admin"] generated None (mkArgv None) shell_env with_certs
      = Ok (config, process_env') with_certs ∧
    allowedHosts (devServer config) = [allowed; internal] ∧
    host (devServer config) ≠ "" ∧ port (devServer config) ≠ "" ∧
    allowed ≠ "" ∧ internal ≠ "".
Proof.
  split; [reflexivity|].
  destruct (module_exports_hosts ["admin"] generated None (mkArgv None)
              shell_env with_certs {| key := "KEY"; cert := "CERT" |}
              with_certs eq_refl)
    as (config & process_env' & allowed & internal & Hrun & _ & Hall & Hh &
        Hp & Ha & Hi & _).
  exists config, process_env', allowed, internal. by repeat split.
Defined.

End Webpack_examples.
